(** * SW360 front end: the obligation aggregation of [AllObligationsView]

    A shallow embedding of
    [src/app/[locale]/projects/components/Obligations/AllObligationsView.tsx]:
    the tree flattening ([extractAllProjects]), the ancestry path
    ([buildProjectPath]), the per-project fetch loop, the filter that builds the
    rows, and the asynchronous effect that ties them together.

    Conventions of the embedding.
    - A value that may be [undefined] is an [option]; a JavaScript [||] on
      strings is [js_or], with the empty string falsy.
    - A plain object used as a dictionary whose entries are enumerated
      ([Object.entries]) is a [JsObject]: its own properties in enumeration
      order.  A dictionary that is only read and written by key is a [gmap].
    - A read by key that finds no own property goes on to the prototype.
      What [rootObs[title]] (line 287) can find there is no obligation: a
      method of [Object.prototype], or a field of the detail that the title
      "__proto__" made the prototype (line 261); its [status] is undefined,
      so the test of line 288 fails on it as on a missing property, and the
      read is [None].  Under the identifier "__proto__" the outer map keeps
      its prototype, which lines 253, 261, 280 and 286 assign and read as
      they do an entry.  The [projectId] given to the view is taken not to
      name a method of [Object.prototype].
    - A response body is seen through the type the code casts it to; a body
      that is thrown (lines 219 and 230) is cast to none, and is seen through
      what [String(_)] makes of it.
    - The effect runs in a small monad over the view's state; a request is
      answered by a [Backend], indexed by the number of requests sent before.
    - [while] has no bound in the source: the loop takes fuel, and running out
      of it is a result of its own ([None], [Diverges]). *)

From Stdlib Require Import ZArith Ascii String.
From stdpp Require Import gmap strings list fin_maps.

#[local] Set Warnings "-register-all".
Local Open Scope string_scope.
Local Open Scope list_scope.

(** ** JavaScript values *)

Module Js.

(** [s.split('/')]: never empty, [""] splits into [[""]]. *)
Fixpoint split_slash (s : string) : list string :=
  match s with
  | EmptyString => [EmptyString]
  | String c rest =>
      if Ascii.eqb c "/"%char then EmptyString :: split_slash rest
      else match split_slash rest with
           | seg :: segs => String c seg :: segs
           | [] => [String c EmptyString]
           end
  end.

(** [s.split('/').at(-1)] *)
Definition last_segment (s : string) : option string := last (split_slash s).

(** Truthiness of a [string | undefined]. *)
Definition truthy (v : option string) : bool :=
  match v with
  | Some s => negb (String.eqb s "")
  | None => false
  end.

(** [a || b] *)
Definition js_or (a b : option string) : option string :=
  if truthy a then a else b.

(** [a || ''] *)
Definition or_empty (a : option string) : string :=
  match js_or a (Some "") with
  | Some s => s
  | None => ""
  end.

(** [a === b] on [string | undefined]. *)
Definition strict_eq (a b : option string) : bool :=
  match a, b with
  | Some x, Some y => String.eqb x y
  | None, None => true
  | _, _ => false
  end.

(** [parts.join(sep)] *)
Fixpoint join (sep : string) (parts : list string) : string :=
  match parts with
  | [] => ""
  | [s] => s
  | s :: rest => s +:+ sep +:+ join sep rest
  end.

End Js.

(** ** Data model ([@/object-types], as far as the view reads it) *)

(** An element of [project.linkedProjects]. *)
Record LinkedProject := mkLinkedProject {
  project : option string
}.

Inductive Project := mkProject {
  project_id : option string;                       (* p.id *)
  project_self_href : option string;                (* p._links?.self.href *)
  project_name : string;                            (* p.name *)
  project_version : option string;                  (* p.version *)
  linkedProjects : option (list LinkedProject);     (* p.linkedProjects *)
  embedded_linkedProjects : option (list Project)   (* p._embedded?.['sw360:linkedProjects'] *)
}.

(** [Embedded<Project, 'sw360:projects'>] *)
Record LinkedProjects := mkLinkedProjects {
  embedded_projects : option (list Project)         (* data._embedded?.['sw360:projects'] *)
}.

Record Release := mkRelease {
  release_name : string;
  release_version : string
}.

Record ObligationData := mkObligationData {
  status : option string;
  obligationType : option string;
  obligationLevel : option string;
  obligation_id : option string;
  comment : option string;
  licenseIds : option (list string);
  releases : option (list Release)
}.

(** [AggregatedObligation]: [{ ...detail, projectName, ... }]. *)
Record AggregatedObligation := mkAggregatedObligation {
  detail : ObligationData;
  projectName : string;
  projectVersion : option string;
  projectId : string;
  obligationTitle : string;
  projectPath : string
}.

(** [p.id || p._links?.self.href.split('/').at(-1)] *)
Definition own_or_link_id (p : Project) : option string :=
  Js.js_or (project_id p) (project_self_href p ≫= Js.last_segment).

(** [p.id || p._links?.self.href.split('/').at(-1) || ''] *)
Definition resolved_id (p : Project) : string :=
  Js.or_empty (own_or_link_id p).

(** ** Flattening the tree of linked projects *)

(** One project of the [for] loop of [extractAllProjects]: push it, then
    recurse into its nested list when that list is present and not empty. *)
Fixpoint extractProject (p : Project) (allProjectsFlat : list Project) : list Project :=
  let allProjectsFlat := allProjectsFlat ++ [p] in
  match embedded_linkedProjects p with
  | Some linked =>
      if (0 <? length linked)%nat
      then (fix loop (projects : list Project) (flat : list Project) : list Project :=
              match projects with
              | [] => flat
              | q :: rest => loop rest (extractProject q flat)
              end) linked allProjectsFlat
      else allProjectsFlat
  | None => allProjectsFlat
  end.

(** [extractAllProjects(projects, allProjectsFlat)], returning the array it
    pushed to. *)
Fixpoint extractAllProjects (projects : list Project) (allProjectsFlat : list Project)
  : list Project :=
  match projects with
  | [] => allProjectsFlat
  | p :: rest => extractAllProjects rest (extractProject p allProjectsFlat)
  end.

(** Lines 235-239: the root first, then the linked tree. *)
Definition flattenProjects (rootProject : Project) (linkedProjectsData : LinkedProjects)
  : list Project :=
  let allProjectsFlat := [rootProject] in
  let linkedProjects := default [] (embedded_projects linkedProjectsData) in
  extractAllProjects linkedProjects allProjectsFlat.

(** ** The ancestry path *)

(** [new Map(allProjects.map((p) => [id, p]))]: a later project with the same
    identifier replaces an earlier one. *)
Definition projectMap_of (allProjects : list Project) : gmap string Project :=
  foldl (fun (m : gmap string Project) (entry : string * Project) => <[entry.1 := entry.2]> m) ∅
        (map (fun p => (resolved_id p, p)) allProjects).

(** The callback of [some], line 62.  It reads the variable [currentId] at
    the time it is called. *)
Definition names_child (currentId : option string) (lp : LinkedProject) : bool :=
  Js.strict_eq (project lp) currentId
  || Js.strict_eq (project lp ≫= Js.last_segment) currentId.

(** [p.linkedProjects?.some(...)] as a condition: [undefined] is falsy. *)
Definition links_to (currentId : option string) (p : Project) : bool :=
  match linkedProjects p with
  | Some lps => existsb (names_child currentId) lps
  | None => false
  end.

(** The [for] loop of lines 60-67, as the value [currentId] has after it:
    assigned from the first project whose condition holds, else unchanged. *)
Fixpoint find_parent (allProjects : list Project) (currentId : option string)
  : option string :=
  match allProjects with
  | [] => currentId
  | p :: rest =>
      if links_to currentId p then own_or_link_id p
      else find_parent rest currentId
  end.

(** The [while] loop of lines 53-68 over the state [(path, currentId)]; one
    unit of fuel per test of the loop condition. *)
Fixpoint path_loop (fuel : nat) (projectMap : gmap string Project)
    (allProjects : list Project) (path : list string) (currentId : option string)
  : option (list string) :=
  match fuel with
  | O => None
  | S fuel =>
      if Js.truthy currentId then
        match currentId ≫= (fun key => projectMap !! key) with
        | None => Some path                                      (* break *)
        | Some project =>
            let path := project_name project :: path in          (* unshift *)
            let currentId : option string := None in             (* line 59 *)
            let currentId := find_parent allProjects currentId in
            path_loop fuel projectMap allProjects path currentId
        end
      else Some path
  end.

Definition buildProjectPath (fuel : nat) (projectId : string) (allProjects : list Project)
  : option string :=
  let projectMap := projectMap_of allProjects in
  Js.join " -> " <$> path_loop fuel projectMap allProjects [] (Some projectId).

(** ** Plain objects with enumerated entries *)

Abbreviation JsObject V := (list (string * V)).

Module Obj.

Definition digit_of (c : ascii) : option N :=
  let n := N_of_ascii c in
  if ((48 <=? n) && (n <=? 57))%N then Some (n - 48)%N else None.

Fixpoint digits_value (s : string) (acc : N) : option N :=
  match s with
  | EmptyString => Some acc
  | String c rest => d ← digit_of c; digits_value rest (acc * 10 + d)%N
  end.

(** A key is an array index when it is the canonical decimal form of an
    integer below [2^32 - 1]; such keys are enumerated first, ascending. *)
Definition array_index (key : string) : option N :=
  match key with
  | EmptyString => None
  | String c rest =>
      if Ascii.eqb c "0"%char && negb (String.eqb rest "") then None
      else v ← digits_value key 0;
           if (v <? 2 ^ 32 - 1)%N then Some v else None
  end.

Section Ops.
Context {V : Type}.

(** [o[key]] for an own property. *)
Fixpoint get (o : JsObject V) (key : string) : option V :=
  match o with
  | [] => None
  | (k, v) :: rest => if String.eqb k key then Some v else get rest key
  end.

Definition has (o : JsObject V) (key : string) : bool :=
  match get o key with Some _ => true | None => false end.

(** Assignment to an existing property: it keeps its place. *)
Fixpoint replace (o : JsObject V) (key : string) (v : V) : JsObject V :=
  match o with
  | [] => []
  | (k, w) :: rest =>
      if String.eqb k key then (k, v) :: rest
      else (k, w) :: replace rest key v
  end.

(** A new array-index property goes before the first larger index and
    before every other key. *)
Fixpoint define_index (o : JsObject V) (key : string) (n : N) (v : V) : JsObject V :=
  match o with
  | [] => [(key, v)]
  | (k, w) :: rest =>
      match array_index k with
      | Some m => if (n <? m)%N then (key, v) :: o
                  else (k, w) :: define_index rest key n v
      | None => (key, v) :: o
      end
  end.

(** A new property: array indices in their place, any other key last. *)
Definition define (o : JsObject V) (key : string) (v : V) : JsObject V :=
  match array_index key with
  | Some n => define_index o key n v
  | None => o ++ [(key, v)]
  end.

(** [o[key] = v] *)
Definition set (o : JsObject V) (key : string) (v : V) : JsObject V :=
  if has o key then replace o key v else define o key v.

(** [Object.entries(o)] *)
Definition entries (o : JsObject V) : list (string * V) := o.

End Ops.

(** The enumeration order of own keys: array indices ascending, then the
    other keys. *)
Fixpoint ordered_keys (keys : list string) : Prop :=
  match keys with
  | [] => True
  | k :: rest =>
      match array_index k with
      | Some n => Forall (fun k' => match array_index k' with
                                    | Some m => (n < m)%N
                                    | None => True
                                    end) rest
      | None => Forall (fun k' => array_index k' = None) rest
      end /\ ordered_keys rest
  end.

(** What [Object.entries] can return: distinct keys in enumeration order. *)
Definition well_formed {V} (o : JsObject V) : Prop :=
  NoDup o.*1 /\ ordered_keys o.*1.

End Obj.

(** ** The filter that builds the rows (lines 272-305) *)

Record ObligationResponse := mkObligationResponse {
  obligations : option (JsObject ObligationData)
}.

(** [Record<string, Record<string, ObligationData>>] *)
Abbreviation ObligationsMap := (gmap string (JsObject ObligationData)).

Definition fulfilledStatuses : list string :=
  ["ACKNOWLEDGED_OR_FULFILLED"; "FULFILLED_AND_PARENT_MUST_ALSO_FULFILL"].

(** [xs.includes(s)] *)
Definition includes (xs : list string) (s : string) : bool :=
  existsb (String.eqb s) xs.

(** [detail.status && fulfilledStatuses.includes(detail.status)] *)
Definition status_fulfilled (detail : ObligationData) : bool :=
  Js.truthy (status detail) && includes fulfilledStatuses (Js.or_empty (status detail)).

(** Lines 284-291; [rootObs[title]] is the own property of that title. *)
Definition parentFulfillmentOk (projectIdProp : string) (projectObligationsMap : ObligationsMap)
    (title : string) (detail : ObligationData) : bool :=
  if Js.strict_eq (status detail) (Some "FULFILLED_AND_PARENT_MUST_ALSO_FULFILL") then
    let rootObs := default [] (projectObligationsMap !! projectIdProp) in
    match Obj.get rootObs title with
    | None => false
    | Some rootOb => includes fulfilledStatuses (Js.or_empty (status rootOb))
    end
  else true.

(** A loop whose body may fail to return. *)
Fixpoint for_each {A S : Type} (body : S -> A -> option S) (xs : list A) (s : S)
  : option S :=
  match xs with
  | [] => Some s
  | x :: rest => s' ← body s x; for_each body rest s'
  end.

Section Aggregation.
Variable fuel : nat.
Variable projectIdProp : string.          (* the [projectId] of [Props] *)
Variable allProjectsFlat : list Project.
Variable projectObligationsMap : ObligationsMap.

(** The callback of [forEach], lines 282-304, on the array it pushes to. *)
Definition aggregate_entry (p : Project) (pId : string)
    (allAggregated : list AggregatedObligation) (entry : string * ObligationData)
  : option (list AggregatedObligation) :=
  let '(title, detail) := entry in
  if status_fulfilled detail then
    if parentFulfillmentOk projectIdProp projectObligationsMap title detail then
      path ← buildProjectPath fuel pId allProjectsFlat;
      Some (allAggregated ++
              [ {| detail := detail;
                   projectName := project_name p;
                   projectVersion := project_version p;
                   projectId := pId;
                   obligationTitle := title;
                   projectPath := path |} ])
    else Some allAggregated
  else Some allAggregated.

(** The body of the [for] loop, lines 278-305. *)
Definition aggregate_project (allAggregated : list AggregatedObligation) (p : Project)
  : option (list AggregatedObligation) :=
  let pId := resolved_id p in
  let obs := default [] (projectObligationsMap !! pId) in
  for_each (aggregate_entry p pId) (Obj.entries obs) allAggregated.

Definition aggregateObligations : option (list AggregatedObligation) :=
  for_each aggregate_project allProjectsFlat [].

End Aggregation.

(** ** The asynchronous effect (lines 204-321) *)

(** What a [catch] can receive, and what [String(error)] of line 310 makes of
    a value that is no [Error]: a text, or an error of its own.  The
    conversion of an object calls its [toString], then its [valueOf]; when
    neither gives a primitive it throws a [TypeError], as for a parsed body
    with a key "toString" of its own. *)
Inductive thrown :=
| AbortError                              (* DOMException named 'AbortError' *)
| ErrorInstance (message : string)        (* any other [Error] *)
| ThrownValue (rendered : rendering)      (* not an [Error] *)
with rendering :=
| Rendered (text : string)                (* [String(error)] returns [text] *)
| Unrendered (raised : thrown).           (* [String(error)] throws [raised] *)

(** A settled promise. *)
Inductive outcome (A : Type) :=
| Rejects (e : thrown)
| Resolves (a : A).
Arguments Rejects {A} e.
Arguments Resolves {A} a.

(** A parsed body: as the type it is cast to, and as [String(_)] renders it
    when it is thrown. *)
Record Parsed (A : Type) := mkParsed {
  as_typed : A;
  as_string : rendering
}.
Arguments mkParsed {A} _ _.
Arguments as_typed {A} _.
Arguments as_string {A} _.

Record Response (A : Type) := mkResponse {
  response_status : Z;                    (* res.status *)
  json : outcome (Parsed A)               (* await res.json() *)
}.
Arguments mkResponse {A} _ _.
Arguments response_status {A} _.
Arguments json {A} _.

(** [ApiUtils.GET] with the effect's token and signal: the answer to the
    [n]-th request of the view, by kind of endpoint and project identifier. *)
Record Backend := mkBackend {
  get_project : nat -> string -> outcome (Response Project);
  get_linkedProjects : nat -> string -> outcome (Response LinkedProjects);
  get_licenseObligations : nat -> string -> outcome (Response ObligationResponse)
}.

(** The state the effect writes: the two [useState] cells, the notification
    sink, and the requests sent so far. *)
Record View := mkView {
  aggregatedObligations : list AggregatedObligation;
  showProcessing : bool;
  errorMessages : list string;            (* MessageService.error *)
  requests : list string
}.

Inductive result (A : Type) :=
| Returns (a : A)
| Throws (e : thrown)
| Diverges.
Arguments Returns {A} a.
Arguments Throws {A} e.
Arguments Diverges {A}.

Definition Async (A : Type) : Type := View -> result A * View.

#[global] Instance Async_ret : MRet Async := fun A a w => (Returns a, w).

#[global] Instance Async_bind : MBind Async := fun A B k m w =>
  match m w with
  | (Returns a, w') => k a w'
  | (Throws e, w') => (Throws e, w')
  | (Diverges, w') => (Diverges, w')
  end.

#[global] Instance Async_fmap : FMap Async := fun A B f m =>
  a ← m; mret (f a).

Definition throw {A} (e : thrown) : Async A := fun w => (Throws e, w).

(** [await promise] for a promise that has settled. *)
Definition await {A} (p : outcome A) : Async A :=
  match p with
  | Rejects e => throw e
  | Resolves a => mret a
  end.

(** [try { body } catch (e) { handler e }] *)
Definition try_catch {A} (body : Async A) (handler : thrown -> Async A) : Async A :=
  fun w =>
    match body w with
    | (Throws e, w') => handler e w'
    | other => other
    end.

(** [try { body } finally { cleanup }], for a cleanup that neither throws
    nor returns a value. *)
Definition try_finally {A} (body : Async A) (cleanup : Async unit) : Async A :=
  fun w =>
    match body w with
    | (Diverges, w') => (Diverges, w')
    | (r, w') => (r, (cleanup w').2)
    end.

(** A computation that may not terminate. *)
Definition of_fuelled {A} (r : option A) : Async A :=
  fun w => match r with
           | Some a => (Returns a, w)
           | None => (Diverges, w)
           end.

Definition setShowProcessing (b : bool) : Async unit := fun w =>
  (Returns tt, mkView (aggregatedObligations w) b (errorMessages w) (requests w)).

Definition setAggregatedObligations (rows : list AggregatedObligation) : Async unit :=
  fun w =>
  (Returns tt, mkView rows (showProcessing w) (errorMessages w) (requests w)).

Definition MessageService_error (message : string) : Async unit := fun w =>
  (Returns tt, mkView (aggregatedObligations w) (showProcessing w)
                      (errorMessages w ++ [message]) (requests w)).

(** [console.error(message, e)]: the console is no part of the view. *)
Definition console_error (message : string) : Async unit := mret tt.

(** [StatusCodes.OK] *)
Definition OK : Z := 200.

Section Effect.
Variable backend : Backend.

(** [await ApiUtils.GET(endpoint, token, signal)] *)
Definition GET {A} (answer : nat -> string -> outcome (Response A))
    (endpoint : string) (id : string) : Async (Response A) := fun w =>
  await (answer (length (requests w)) id)
        (mkView (aggregatedObligations w) (showProcessing w) (errorMessages w)
                (requests w ++ [endpoint])).

(** Line 261, [projectObligationsMap[pId][title] = { ...detail }]; the inner
    object was assigned on line 253.  The assignment creates or overwrites an
    own property, except under the title "__proto__": that one reaches the
    setter the object inherits, which makes the copy of the detail the
    prototype of the project's object and stores no property. *)
Definition store_entry (pId : string) (projectObligationsMap : ObligationsMap)
    (entry : string * ObligationData) : ObligationsMap :=
  let '(title, detail) := entry in
  if String.eqb title "__proto__" then projectObligationsMap
  else <[pId := Obj.set (default [] (projectObligationsMap !! pId)) title detail]>
         projectObligationsMap.

(** The body of the [for] loop of lines 247-270. *)
Definition fetch_project (projectObligationsMap : ObligationsMap) (p : Project)
  : Async ObligationsMap :=
  let pId := resolved_id p in
  if negb (Js.truthy (Some pId)) then mret projectObligationsMap      (* continue *)
  else
    let endpoint := "projects/" +:+ pId +:+ "/licenseObligations" in
    let projectObligationsMap := <[pId := []]> projectObligationsMap in
    try_catch
      (res ← GET (get_licenseObligations backend) endpoint pId;
       if (response_status res =? OK)%Z then
         data ← as_typed <$> await (json res);
         match obligations data with
         | Some obs => mret (foldl (store_entry pId) projectObligationsMap (Obj.entries obs))
         | None => mret projectObligationsMap
         end
       else mret projectObligationsMap)
      (fun e =>
         console_error ("Failed to parse response for project " +:+ pId);;
         mret projectObligationsMap).

Fixpoint fetch_loop (projects : list Project) (projectObligationsMap : ObligationsMap)
  : Async ObligationsMap :=
  match projects with
  | [] => mret projectObligationsMap
  | p :: rest =>
      projectObligationsMap ← fetch_project projectObligationsMap p;
      fetch_loop rest projectObligationsMap
  end.

Variable fuel : nat.
Variable projectIdProp : string.          (* the [projectId] of [Props] *)

(** Lines 212-239 of the [try] block: the root project, the tree of its
    linked projects, and the flat list of both. *)
Definition fetch_projects : Async (list Project) :=
  rootProjectResponse ← GET (get_project backend) ("projects/" +:+ projectIdProp) projectIdProp;
  (if negb (response_status rootProjectResponse =? OK)%Z
   then error ← await (json rootProjectResponse); throw (ThrownValue (as_string error))
   else mret tt);;
  rootProject ← as_typed <$> await (json rootProjectResponse);
  linkedProjectsResponse ←
    GET (get_linkedProjects backend)
        ("projects/" +:+ projectIdProp +:+ "/linkedProjects?transitive=true&expand=true")
        projectIdProp;
  (if negb (response_status linkedProjectsResponse =? OK)%Z
   then error ← await (json linkedProjectsResponse); throw (ThrownValue (as_string error))
   else mret tt);;
  linkedProjectsData ← as_typed <$> await (json linkedProjectsResponse);
  mret (flattenProjects rootProject linkedProjectsData).

(** The [try] block, lines 212-307. *)
Definition load_try : Async unit :=
  allProjectsFlat ← fetch_projects;
  projectObligationsMap ← fetch_loop allProjectsFlat ∅;
  allAggregated ←
    of_fuelled (aggregateObligations fuel projectIdProp allProjectsFlat projectObligationsMap);
  setAggregatedObligations allAggregated.

(** [String(error)] *)
Definition String_of (rendered : rendering) : Async string :=
  match rendered with
  | Rendered text => mret text
  | Unrendered raised => throw raised
  end.

(** The [catch] block, lines 308-311.  Nothing catches what it throws. *)
Definition load_catch (error : thrown) : Async unit :=
  match error with
  | AbortError => mret tt                                   (* return *)
  | ErrorInstance message => MessageService_error message
  | ThrownValue rendered => message ← String_of rendered; MessageService_error message
  end.

(** The asynchronous function the effect starts, lines 209-315. *)
Definition loadObligations : Async unit :=
  setShowProcessing true;;
  try_finally (try_catch load_try load_catch) (setShowProcessing false).

End Effect.

Inductive session_status := authenticated | unauthenticated | loading.

(** The effect itself: inert unless the session is authenticated. *)
Definition effect (session : session_status) (backend : Backend) (fuel : nat)
    (projectIdProp : string) (w : View) : result unit * View :=
  match session with
  | authenticated => loadObligations backend fuel projectIdProp w
  | _ => (Returns tt, w)
  end.

(** ** The table cells (lines 37-41 and 97-192) *)

Module Text.

(** [s.split(sep)] for a separator of one character. *)
Fixpoint split_on (sep : ascii) (s : string) : list string :=
  match s with
  | EmptyString => [EmptyString]
  | String c rest =>
      if Ascii.eqb c sep then EmptyString :: split_on sep rest
      else match split_on sep rest with
           | seg :: segs => String c seg :: segs
           | [] => [String c EmptyString]
           end
  end.

(** [c.toUpperCase()] and [c.toLowerCase()] on an ASCII character. *)
Definition upper_char (c : ascii) : ascii :=
  let n := N_of_ascii c in
  if ((97 <=? n) && (n <=? 122))%N then ascii_of_N (n - 32) else c.

Definition lower_char (c : ascii) : ascii :=
  let n := N_of_ascii c in
  if ((65 <=? n) && (n <=? 90))%N then ascii_of_N (n + 32) else c.

Fixpoint map_chars (f : ascii -> ascii) (s : string) : string :=
  match s with
  | EmptyString => EmptyString
  | String c rest => String (f c) (map_chars f rest)
  end.

(** [s.toUpperCase()] and [s.toLowerCase()] on ASCII text. *)
Definition toUpperCase (s : string) : string := map_chars upper_char s.
Definition toLowerCase (s : string) : string := map_chars lower_char s.

(** [s.charAt(0)]: the empty string when [s] is empty. *)
Definition charAt0 (s : string) : string :=
  match s with
  | EmptyString => EmptyString
  | String c _ => String c EmptyString
  end.

(** [s.substring(1)] *)
Definition substring1 (s : string) : string :=
  match s with
  | EmptyString => EmptyString
  | String _ rest => rest
  end.

(** Text in which JavaScript and the embedding agree on what a character
    and its case are. *)
Fixpoint ascii_text (s : string) : Prop :=
  match s with
  | EmptyString => True
  | String c rest => (N_of_ascii c < 128)%N /\ ascii_text rest
  end.

End Text.

(** Lines 37-41. *)
Definition Capitalize (text : string) : string :=
  Js.join " "
    (map (fun c => Text.toUpperCase (Text.charAt0 c) +:+ Text.toLowerCase (Text.substring1 c))
         (Text.split_on "_" text)).

(** The text of the status cell, line 123: [Capitalize(row.original.status ?? '')]. *)
Definition status_cell (row : AggregatedObligation) : string :=
  Capitalize (default "" (status (detail row))).

(** What the view shows, lines 323-340: the spinner while processing, else
    the table over the rows. *)
Inductive shown :=
| ShowsSpinner
| ShowsTable (rows : list AggregatedObligation).

Definition render (w : View) : shown :=
  if showProcessing w then ShowsSpinner else ShowsTable (aggregatedObligations w).

(** ** [AuthProvider] ([src/components/AuthProvider.tsx]) *)

Module AuthProvider.

(** What the component returns, lines 21-33. *)
Inductive output := Spinner | Children | Null.

Definition render (status : session_status) : output :=
  if match status with loading => true | _ => false end then Spinner
  else if match status with authenticated => true | _ => false end then Children
  else Null.

(** The effect of lines 14-19: the [callbackUrl] of the [signIn] it calls,
    if it calls it. *)
Definition signIn_callbackUrl (status : session_status) (pathname : string)
  : option string :=
  match status with
  | unauthenticated => Some pathname
  | _ => None
  end.

End AuthProvider.

(** * Vocabulary of the properties *)

(** ** Trees of projects *)

(** Induction over a project and the projects nested in it. *)
Section ProjectInduction.
Variable P : Project -> Prop.
Hypothesis step : forall i h n v lps emb,
  match emb with Some nested => Forall P nested | None => True end ->
  P (mkProject i h n v lps emb).

Fixpoint Project_nested_ind (p : Project) : P p :=
  match p with
  | mkProject i h n v lps emb =>
      step i h n v lps emb
        (match emb return match emb with Some nested => Forall P nested | None => True end with
         | Some nested =>
             (fix all (l : list Project) : Forall P l :=
                match l with
                | [] => @List.Forall_nil Project P
                | q :: rest => @List.Forall_cons Project P q rest (Project_nested_ind q) (all rest)
                end) nested
         | None => I
         end)
  end.
End ProjectInduction.

(** The pre-order walk the specification names: a node, then the walks of
    its nested linked projects, left to right. *)
Fixpoint preorder (p : Project) : list Project :=
  p :: match embedded_linkedProjects p with
       | Some nested => flat_map preorder nested
       | None => []
       end.

(** The walk of a list of trees, one after the other. *)
Definition preorder_forest (projects : list Project) : list Project :=
  flat_map preorder projects.

(** The number of nodes of a tree that satisfy [f]. *)
Fixpoint count_nodes (f : Project -> bool) (p : Project) : nat :=
  (if f p then 1 else 0) +
  match embedded_linkedProjects p with
  | Some nested => foldr (fun q n => count_nodes f q + n) 0 nested
  | None => 0
  end.

(** The same count over a list of trees. *)
Definition count_forest (f : Project -> bool) (projects : list Project) : nat :=
  foldr (fun q n => count_nodes f q + n) 0 projects.

(** ** The parent search *)

(** Every reference of every project of the list carries its [project]. *)
Definition links_defined (allProjects : list Project) : Prop :=
  Forall (fun p => forall lps, linkedProjects p = Some lps ->
                               Forall (fun lp => is_Some (project lp)) lps)
         allProjects.

(** The search of lines 60-67 leaves a falsy [currentId]: the loop stops at
    its next test. *)
Definition path_settles (allProjects : list Project) : Prop :=
  Js.truthy (find_parent allProjects None) = false.

(** The project the loop looks up first. *)
Definition first_lookup (projectId : string) (allProjects : list Project) : option Project :=
  if Js.truthy (Some projectId) then projectMap_of allProjects !! projectId else None.

(** ** Statuses, the inclusion filter and the rows *)

Definition ACKNOWLEDGED_OR_FULFILLED : string := "ACKNOWLEDGED_OR_FULFILLED".
Definition FULFILLED_AND_PARENT_MUST_ALSO_FULFILL : string :=
  "FULFILLED_AND_PARENT_MUST_ALSO_FULFILL".

(** One of the two fulfilled values. *)
Definition fulfilled (s : option string) : Prop :=
  s = Some ACKNOWLEDGED_OR_FULFILLED \/ s = Some FULFILLED_AND_PARENT_MUST_ALSO_FULFILL.

(** The root project's map holds, under [title], an obligation with a
    fulfilled status. *)
Definition root_fulfilled (projectIdProp : string) (m : ObligationsMap) (title : string)
  : Prop :=
  exists rootOb, Obj.get (default [] (m !! projectIdProp)) title = Some rootOb
                 /\ fulfilled (status rootOb).

(** The inclusion filter of lines 283-293 on one entry. *)
Definition included (projectIdProp : string) (m : ObligationsMap)
    (entry : string * ObligationData) : bool :=
  status_fulfilled entry.2 && parentFulfillmentOk projectIdProp m entry.1 entry.2.

(** The entries that pass the filter, in the order the two loops meet them. *)
Definition selected (projectIdProp : string) (m : ObligationsMap) (allProjectsFlat : list Project)
  : list (Project * (string * ObligationData)) :=
  flat_map (fun p => map (pair p)
                         (List.filter (included projectIdProp m)
                                      (Obj.entries (default [] (m !! resolved_id p)))))
           allProjectsFlat.

(** The object pushed on lines 294-301. *)
Definition row_of (p : Project) (entry : string * ObligationData) (path : string)
  : AggregatedObligation :=
  {| detail := entry.2;
     projectName := project_name p;
     projectVersion := project_version p;
     projectId := resolved_id p;
     obligationTitle := entry.1;
     projectPath := path |}.

(** The row of an entry that passed, once its path is built. *)
Definition row_for (fuel : nat) (allProjectsFlat : list Project)
    (sel : Project * (string * ObligationData)) : option AggregatedObligation :=
  path ← buildProjectPath fuel (resolved_id sel.1) allProjectsFlat;
  Some (row_of sel.1 sel.2 path).

(** The (project, obligation-title) pair a row stands for. *)
Definition row_key (r : AggregatedObligation) : string * string :=
  (projectId r, obligationTitle r).

(** The pair of an entry that passed. *)
Definition sel_key (sel : Project * (string * ObligationData)) : string * string :=
  (resolved_id sel.1, sel.2.1).

(** A pair passes the inclusion filter: a project of the flat list has the
    identifier, its map has the title, and the entry is included. *)
Definition passes (projectIdProp : string) (m : ObligationsMap)
    (allProjectsFlat : list Project) (key : string * string) : Prop :=
  exists p d, In p allProjectsFlat
              /\ resolved_id p = key.1
              /\ In (key.2, d) (default [] (m !! key.1))
              /\ included projectIdProp m (key.2, d) = true.

(** Exactly one row per pair that passes: no pair twice, none omitted, and
    no row for a pair that does not pass. *)
Definition one_row_per_pair (projectIdProp : string) (m : ObligationsMap)
    (allProjectsFlat : list Project) (rows : list AggregatedObligation) : Prop :=
  NoDup (row_key <$> rows)
  /\ forall key, passes projectIdProp m allProjectsFlat key <-> In key (row_key <$> rows).

(** An obligation of which only the status is set. *)
Definition obligation_with (s : string) : ObligationData :=
  mkObligationData (Some s) None None None None None None.

(** ** Writing the entries of a response *)

(** One step of the copy of lines 260-264 into the object of a project, for
    an entry that becomes a property. *)
Definition set_entry {V} (o : JsObject V) (e : string * V) : JsObject V :=
  Obj.set o e.1 e.2.

(** The entries of a response that become properties of the project's
    object: all but one titled "__proto__". *)
Definition own_entries {V} (es : JsObject V) : JsObject V :=
  List.filter (fun e => negb (String.eqb e.1 "__proto__")) es.

(** [k] is enumerated before a [key] that comes later in an object. *)
Definition before (key k : string) : Prop :=
  match Obj.array_index k with
  | Some i => match Obj.array_index key with
              | Some n => (i < n)%N
              | None => True
              end
  | None => Obj.array_index key = None
  end.

(** ** The requests and the map of the fetch loop *)

(** The view once the requests to [endpoints] are sent as well. *)
Definition sent (w : View) (endpoints : list string) : View :=
  mkView (aggregatedObligations w) (showProcessing w) (errorMessages w)
         (requests w ++ endpoints).

(** The endpoint of line 252. *)
Definition obligations_endpoint (pId : string) : string :=
  "projects/" +:+ pId +:+ "/licenseObligations".

(** The map after the answer to one project's request: its object is reset,
    and filled only from a success response that parses. *)
Definition fetched (answer : outcome (Response ObligationResponse)) (pId : string)
    (m : ObligationsMap) : ObligationsMap :=
  let m := <[pId := []]> m in
  match answer with
  | Resolves res =>
      if (response_status res =? OK)%Z then
        match json res with
        | Resolves body =>
            match obligations (as_typed body) with
            | Some obs => foldl (store_entry pId) m (Obj.entries obs)
            | None => m
            end
        | Rejects _ => m
        end
      else m
  | Rejects _ => m
  end.

(** The map and the requests of the whole loop, from the answers alone;
    [n] requests were sent before. *)
Fixpoint fetch_all (answers : nat -> string -> outcome (Response ObligationResponse))
    (n : nat) (projects : list Project) (m : ObligationsMap)
  : ObligationsMap * list string :=
  match projects with
  | [] => (m, [])
  | p :: rest =>
      let pId := resolved_id p in
      if Js.truthy (Some pId) then
        let '(m', endpoints) := fetch_all answers (S n) rest (fetched (answers n pId) pId m) in
        (m', obligations_endpoint pId :: endpoints)
      else fetch_all answers n rest m
  end.

(** ** A run, from the answers alone *)

(** [await GET], the status test, and [await res.json()] (lines 213-221 and
    224-232) on one answer. *)
Definition checked {A} (answer : outcome (Response A)) : result A :=
  match answer with
  | Rejects e => Throws e
  | Resolves res =>
      match json res with
      | Rejects e => Throws e
      | Resolves body =>
          if negb (response_status res =? OK)%Z
          then Throws (ThrownValue (as_string body))
          else Returns (as_typed body)
      end
  end.

(** The endpoints of lines 214 and 225. *)
Definition root_endpoint (projectIdProp : string) : string :=
  "projects/" +:+ projectIdProp.

Definition tree_endpoint (projectIdProp : string) : string :=
  "projects/" +:+ projectIdProp +:+ "/linkedProjects?transitive=true&expand=true".

(** How a run ends, and the requests it sent. *)
Inductive run_end :=
| Failed (e : thrown) (endpoints : list string)       (* the [catch] block ran *)
| Completed (rows : list AggregatedObligation) (endpoints : list string)
| Unfinished (endpoints : list string).               (* out of fuel *)

(** The end of the run that starts when [n] requests were sent before. *)
Definition summary (backend : Backend) (fuel : nat) (projectIdProp : string) (n : nat)
  : run_end :=
  match checked (get_project backend n projectIdProp) with
  | Throws e => Failed e [root_endpoint projectIdProp]
  | Diverges => Unfinished [root_endpoint projectIdProp]
  | Returns rootProject =>
      let sent2 := [root_endpoint projectIdProp; tree_endpoint projectIdProp] in
      match checked (get_linkedProjects backend (S n) projectIdProp) with
      | Throws e => Failed e sent2
      | Diverges => Unfinished sent2
      | Returns linkedProjectsData =>
          let allProjectsFlat := flattenProjects rootProject linkedProjectsData in
          let '(m, endpoints) :=
            fetch_all (get_licenseObligations backend) (S (S n)) allProjectsFlat ∅ in
          match aggregateObligations fuel projectIdProp allProjectsFlat m with
          | Some rows => Completed rows (sent2 ++ endpoints)
          | None => Unfinished (sent2 ++ endpoints)
          end
      end
  end.

(** What the [catch] block sends to the notification sink. *)
Definition notified (e : thrown) : list string :=
  match e with
  | AbortError => []
  | ErrorInstance message => [message]
  | ThrownValue (Rendered text) => [text]
  | ThrownValue (Unrendered _) => []
  end.

(** How the [catch] block ends: it returns, or throws what [String(error)]
    threw. *)
Definition caught (e : thrown) : result unit :=
  match e with
  | ThrownValue (Unrendered raised) => Throws raised
  | _ => Returns tt
  end.

(** The result and the view a run that ends as [s] leaves. *)
Definition settle (w : View) (s : run_end) : result unit * View :=
  match s with
  | Failed e endpoints =>
      (caught e, mkView (aggregatedObligations w) false (errorMessages w ++ notified e)
                        (requests w ++ endpoints))
  | Completed rows endpoints =>
      (Returns tt, mkView rows false (errorMessages w) (requests w ++ endpoints))
  | Unfinished endpoints =>
      (Diverges, mkView (aggregatedObligations w) true (errorMessages w)
                        (requests w ++ endpoints))
  end.

(** A success response whose body parses to [a]. *)
Definition answer_with {A} (a : A) : outcome (Response A) :=
  Resolves (mkResponse OK (Resolves (mkParsed a (Rendered "[object Object]")))).

(** ** Failures and snapshots *)

(** Every request for the obligations of [pid] gets a response with a
    non-success status, or one whose body fails to parse. *)
Definition obligations_fetch_fails (backend : Backend) (pid : string) : Prop :=
  forall n, exists res,
    get_licenseObligations backend n pid = Resolves res
    /\ (response_status res <> OK \/ exists e, json res = Rejects e).

(** The same backend, except that [pid] has no obligations. *)
Definition answering_nothing (backend : Backend) (pid : string) : Backend :=
  mkBackend (get_project backend) (get_linkedProjects backend)
            (fun n id => if String.eqb id pid
                         then answer_with (mkObligationResponse None)
                         else get_licenseObligations backend n id).

(** What reading the body of a response gives the [throw] of lines 219 and
    230: the error value, as [String(_)] renders it, or what the read rejects
    with. *)
Definition error_body {A} (res : Response A) : outcome rendering :=
  match json res with
  | Rejects e => Rejects e
  | Resolves body => Resolves (as_string body)
  end.

(** What the [catch] block receives from that [throw]. *)
Definition thrown_body (body : outcome rendering) : thrown :=
  match body with
  | Rejects e => e
  | Resolves rendered => ThrownValue rendered
  end.

(** [String(error)] returns on [e], where line 310 calls it. *)
Definition converts (e : thrown) : Prop :=
  forall raised, e <> ThrownValue (Unrendered raised).

(** The root fetch, or else the tree fetch, returns a non-success status;
    with the body of that response and the requests sent up to it. *)
Inductive fatal_fetch (backend : Backend) (projectIdProp : string) (n : nat)
  : outcome rendering -> list string -> Prop :=
| root_fetch_fails res :
    get_project backend n projectIdProp = Resolves res ->
    response_status res <> OK ->
    fatal_fetch backend projectIdProp n (error_body res) [root_endpoint projectIdProp]
| tree_fetch_fails rootProject res :
    checked (get_project backend n projectIdProp) = Returns rootProject ->
    get_linkedProjects backend (S n) projectIdProp = Resolves res ->
    response_status res <> OK ->
    fatal_fetch backend projectIdProp n (error_body res)
                [root_endpoint projectIdProp; tree_endpoint projectIdProp].

(** A backend whose answers do not depend on when they are asked for. *)
Definition snapshot (backend : Backend) : Prop :=
  forall n n' id,
    get_project backend n id = get_project backend n' id
    /\ get_linkedProjects backend n id = get_linkedProjects backend n' id
    /\ get_licenseObligations backend n id = get_licenseObligations backend n' id.

(** ** Worked instances *)

(** A root that links its child by the child's resource link. *)
Definition example_child : Project :=
  mkProject (Some "c") None "Child" None None None.

Definition example_root : Project :=
  mkProject (Some "r") None "Root" (Some "1.0")
            (Some [mkLinkedProject (Some "https://sw360.example/api/projects/c")])
            None.

(** The linked tree of a root with two children that both link [Shared]. *)
Definition example_shared : Project :=
  mkProject (Some "d") None "Shared" None None None.

Definition example_left : Project :=
  mkProject (Some "a") None "Left" None
            (Some [mkLinkedProject (Some "d")]) (Some [example_shared]).

Definition example_right : Project :=
  mkProject (Some "b") None "Right" None
            (Some [mkLinkedProject (Some "d")]) (Some [example_shared]).

Definition example_top : Project :=
  mkProject (Some "r") None "Top" None
            (Some [mkLinkedProject (Some "a"); mkLinkedProject (Some "b")]) None.

Definition example_diamond : list Project :=
  flattenProjects example_top (mkLinkedProjects (Some [example_left; example_right])).

Definition example_diamond_map : ObligationsMap :=
  <["d" := [("Attribution", obligation_with ACKNOWLEDGED_OR_FULFILLED)]]> ∅.

(** A response with the one obligation "Attribution", acknowledged. *)
Definition example_attribution : ObligationResponse :=
  mkObligationResponse
    (Some [("Attribution", obligation_with ACKNOWLEDGED_OR_FULFILLED)]).

(** A root with one linked child; the request for the root's obligations
    (the third request of the run) is answered, every later one is aborted. *)
Definition backend_cancelled_mid_fetch : Backend :=
  mkBackend
    (fun _ _ => answer_with example_root)
    (fun _ _ => answer_with (mkLinkedProjects (Some [example_child])))
    (fun n _ => if (n =? 2)%nat then answer_with example_attribution
                else Rejects AbortError).

(** The view before its first run. *)
Definition empty_view : View := mkView [] false [] [].

(** The root fetch returns status 500 and the run is cancelled while the
    body of that response is read. *)
Definition backend_cancelled_error_body : Backend :=
  mkBackend
    (fun _ _ => Resolves (mkResponse 500 (Rejects AbortError)))
    (fun _ _ => Rejects AbortError)
    (fun _ _ => Rejects AbortError).

(** The root acknowledges "Attribution"; its child fulfils it on condition
    that the parent does; the root's "Notice" is open. *)
Definition example_flat : list Project := [example_root; example_child].

Definition example_map : ObligationsMap :=
  <["c" := [("Attribution", obligation_with FULFILLED_AND_PARENT_MUST_ALSO_FULFILL)]]>
    (<["r" := [("Attribution", obligation_with ACKNOWLEDGED_OR_FULFILLED);
               ("Notice", obligation_with "OPEN")]]> ∅).

Definition example_rows : list AggregatedObligation :=
  [row_of example_root ("Attribution", obligation_with ACKNOWLEDGED_OR_FULFILLED) "Root";
   row_of example_child
          ("Attribution", obligation_with FULFILLED_AND_PARENT_MUST_ALSO_FULFILL) "Child"].

(** The root itself fulfils "Attribution" on condition that the parent does. *)
Definition example_root_map : ObligationsMap :=
  <["r" := [("Attribution", obligation_with FULFILLED_AND_PARENT_MUST_ALSO_FULFILL)]]> ∅.

Definition example_root_rows : list AggregatedObligation :=
  [row_of example_root
          ("Attribution", obligation_with FULFILLED_AND_PARENT_MUST_ALSO_FULFILL) "Root"].

(** The child's obligation fetch is refused; the root's is answered. *)
Definition backend_child_refused : Backend :=
  mkBackend
    (fun _ _ => answer_with example_root)
    (fun _ _ => answer_with (mkLinkedProjects (Some [example_child])))
    (fun _ id => if String.eqb id "c"
                 then Resolves (mkResponse 403 (Resolves (mkParsed (mkObligationResponse None)
                                                                   (Rendered "[object Object]"))))
                 else answer_with example_attribution).

(** The root fetch is answered with status 404 and an error document. *)
Definition backend_root_missing : Backend :=
  mkBackend
    (fun _ _ => Resolves (mkResponse 404 (Resolves (mkParsed example_root
                                                             (Rendered "[object Object]")))))
    (fun _ _ => answer_with (mkLinkedProjects None))
    (fun _ _ => answer_with example_attribution).

(** Every request is answered the same way each time. *)
Definition backend_steady : Backend :=
  mkBackend
    (fun _ _ => answer_with example_root)
    (fun _ _ => answer_with (mkLinkedProjects (Some [example_child])))
    (fun _ id => if String.eqb id "r" then answer_with example_attribution
                 else answer_with (mkObligationResponse None)).

(** ** Vocabulary of the further properties *)

(** No character of [s] is a slash. *)
Fixpoint no_slash (s : string) : Prop :=
  match s with
  | EmptyString => True
  | String c rest => c <> "/"%char /\ no_slash rest
  end.

(** [Capitalize] in one pass: an underscore becomes a space, a character at
    the start of the text or right after an underscore is upper-cased, every
    other character is lower-cased. *)
Fixpoint capitalize_from (start : bool) (s : string) : string :=
  match s with
  | EmptyString => EmptyString
  | String c rest =>
      if Ascii.eqb c "_"%char then String " "%char (capitalize_from true rest)
      else String (if start then Text.upper_char c else Text.lower_char c)
                  (capitalize_from false rest)
  end.

(** The callback of [map] on line 40. *)
Definition capitalize_piece (c : string) : string :=
  Text.toUpperCase (Text.charAt0 c) +:+ Text.toLowerCase (Text.substring1 c).

(** The identifiers the fetch loop sends a request for, in order. *)
Definition fetched_ids (allProjectsFlat : list Project) : list string :=
  List.filter (fun pId => Js.truthy (Some pId)) (map resolved_id allProjectsFlat).

(** The obligations a project's map holds after its answer, when the object
    of the response is well formed: those of a success response that parses
    and has them, none otherwise. *)
Definition response_entries (answer : outcome (Response ObligationResponse))
  : JsObject ObligationData :=
  match answer with
  | Resolves res =>
      if (response_status res =? OK)%Z then
        match json res with
        | Resolves body => default [] (obligations (as_typed body))
        | Rejects _ => []
        end
      else []
  | Rejects _ => []
  end.

(** The root fetch or the tree fetch throws [e]: the request is rejected, or
    the read of the body of the response is; with the requests sent. *)
Inductive fetch_throws (backend : Backend) (projectIdProp : string) (n : nat)
  : thrown -> list string -> Prop :=
| root_request_rejected e :
    get_project backend n projectIdProp = Rejects e ->
    fetch_throws backend projectIdProp n e [root_endpoint projectIdProp]
| root_body_rejected res e :
    get_project backend n projectIdProp = Resolves res ->
    json res = Rejects e ->
    fetch_throws backend projectIdProp n e [root_endpoint projectIdProp]
| tree_request_rejected rootProject e :
    checked (get_project backend n projectIdProp) = Returns rootProject ->
    get_linkedProjects backend (S n) projectIdProp = Rejects e ->
    fetch_throws backend projectIdProp n e
                 [root_endpoint projectIdProp; tree_endpoint projectIdProp]
| tree_body_rejected rootProject res e :
    checked (get_project backend n projectIdProp) = Returns rootProject ->
    get_linkedProjects backend (S n) projectIdProp = Resolves res ->
    json res = Rejects e ->
    fetch_throws backend projectIdProp n e
                 [root_endpoint projectIdProp; tree_endpoint projectIdProp].

(** Both the root fetch and the tree fetch succeed. *)
Definition tree_fetched (backend : Backend) (projectIdProp : string) (n : nat)
    (rootProject : Project) (linkedProjectsData : LinkedProjects) : Prop :=
  checked (get_project backend n projectIdProp) = Returns rootProject
  /\ checked (get_linkedProjects backend (S n) projectIdProp) = Returns linkedProjectsData.

(** No object of the map holds a title twice. *)
Definition titles_distinct (m : ObligationsMap) : Prop :=
  forall k o, m !! k = Some o -> NoDup o.*1.

(** ** Further worked instances *)

(** A root one of whose references has no [project]. *)
Definition example_dangling_root : Project :=
  mkProject (Some "r") None "Root" None (Some [mkLinkedProject None]) None.

(** The map the fetch loop returns against [backend_steady]. *)
Definition example_fetched_map : ObligationsMap :=
  <["c" := []]>
    (<["r" := [("Attribution", obligation_with ACKNOWLEDGED_OR_FULFILLED)]]> ∅).

(** The view after the two obligation requests of that loop. *)
Definition example_fetched_view : View :=
  mkView [] false [] ["projects/r/licenseObligations"; "projects/c/licenseObligations"].

(** The run is cancelled while the root project is fetched. *)
Definition backend_cancelled_at_root : Backend :=
  mkBackend (fun _ _ => Rejects AbortError)
            (fun _ _ => Rejects AbortError)
            (fun _ _ => Rejects AbortError).

(** The network is down. *)
Definition backend_network_down : Backend :=
  mkBackend (fun _ _ => Rejects (ErrorInstance "Failed to fetch"))
            (fun _ _ => Rejects (ErrorInstance "Failed to fetch"))
            (fun _ _ => Rejects (ErrorInstance "Failed to fetch")).

(** Nothing is fulfilled: the root's only obligation is open. *)
Definition example_open_map : ObligationsMap :=
  <["r" := [("Notice", obligation_with "OPEN")]]> ∅.

(** The root with the dangling reference, and a child. *)
Definition example_dangling_flat : list Project :=
  [example_dangling_root; example_child].

(** A response whose first obligation is titled "__proto__". *)
Definition example_proto_response : ObligationResponse :=
  mkObligationResponse
    (Some [("__proto__", obligation_with ACKNOWLEDGED_OR_FULFILLED);
           ("Attribution", obligation_with ACKNOWLEDGED_OR_FULFILLED)]).

(** [backend_steady], with that response for the root. *)
Definition backend_proto_title : Backend :=
  mkBackend
    (fun _ _ => answer_with example_root)
    (fun _ _ => answer_with (mkLinkedProjects (Some [example_child])))
    (fun _ id => if String.eqb id "r" then answer_with example_proto_response
                 else answer_with (mkObligationResponse None)).

(** The root fetch is answered with status 500 and an error document that
    has a key "toString" of its own: [String(_)] throws a [TypeError] on
    it. *)
Definition backend_unprintable_body : Backend :=
  mkBackend
    (fun _ _ =>
       Resolves (mkResponse 500
                   (Resolves (mkParsed example_root
                                (Unrendered (ErrorInstance
                                               "Cannot convert object to primitive value"))))))
    (fun _ _ => answer_with (mkLinkedProjects None))
    (fun _ _ => answer_with example_attribution).

(** * Properties *)

(** ** The flattening is a pre-order walk *)

Lemma extractAllProjects_app projects flat :
  (forall q, In q projects -> forall acc, extractProject q acc = acc ++ preorder q) ->
  extractAllProjects projects flat = flat ++ preorder_forest projects.
Proof.
  revert flat. induction projects as [|q rest IH]; intros flat Hq; simpl.
  - by rewrite app_nil_r.
  - rewrite Hq by (by left). rewrite IH by (intros; apply Hq; by right).
    unfold preorder_forest. by rewrite <- app_assoc.
Qed.

Lemma extractProject_preorder p : forall acc, extractProject p acc = acc ++ preorder p.
Proof.
  induction p as [i h n v lps emb IH] using Project_nested_ind. intros acc.
  destruct emb as [nested|]; simpl; [|done].
  change ((fix loop (projects flat : list Project) {struct projects} : list Project :=
             match projects with
             | [] => flat
             | q :: rest => loop rest (extractProject q flat)
             end) nested) with (extractAllProjects nested).
  destruct nested as [|q rest]; simpl; [done|].
  rewrite List.Forall_forall in IH.
  rewrite (IH q) by (by left).
  rewrite extractAllProjects_app by (intros; apply IH; by right).
  by rewrite <- !app_assoc.
Qed.

Lemma extractAllProjects_preorder projects flat :
  extractAllProjects projects flat = flat ++ preorder_forest projects.
Proof. apply extractAllProjects_app. intros. apply extractProject_preorder. Qed.

(** The equation the source is written by. *)
Lemma extractAllProjects_unfold p rest flat :
  extractAllProjects (p :: rest) flat =
  extractAllProjects rest
    (let flat := flat ++ [p] in
     match embedded_linkedProjects p with
     | Some linked => if (0 <? length linked)%nat
                      then extractAllProjects linked flat else flat
     | None => flat
     end).
Proof. destruct p as [i h n v lps [nested|]]; reflexivity. Qed.

Lemma filter_length_app {A} (f : A -> bool) (l k : list A) :
  length (List.filter f (l ++ k)) = length (List.filter f l) + length (List.filter f k).
Proof. by rewrite List.filter_app, length_app. Qed.

Lemma preorder_count f p :
  length (List.filter f (preorder p)) = count_nodes f p.
Proof.
  induction p as [i h n v lps emb IH] using Project_nested_ind.
  cbn [preorder count_nodes embedded_linkedProjects List.filter].
  set (p := mkProject i h n v lps emb).
  assert (Hn : match emb with
               | Some nested =>
                   length (List.filter f (flat_map preorder nested)) =
                   foldr (fun q n => count_nodes f q + n) 0 nested
               | None => True
               end).
  { destruct emb as [nested|]; [|done].
    induction nested as [|q rest IHr]; simpl; [done|].
    inversion IH as [|? ? Hq Hrest]; subst.
    rewrite filter_length_app, Hq. f_equal. by apply IHr. }
  destruct emb as [nested|]; destruct (f p); simpl; lia.
Qed.

Lemma preorder_forest_count f projects :
  length (List.filter f (preorder_forest projects)) = count_forest f projects.
Proof.
  induction projects as [|q rest IH]; simpl; [done|].
  unfold preorder_forest in *. simpl.
  by rewrite filter_length_app, preorder_count, IH.
Qed.

(** C4.  The flattening step returns the root followed by the pre-order walk
    of the linked tree: the root is at index 0, and for every property of
    projects the sequence has as many entries with it as the root and the
    tree have nodes with it, so each node occurs exactly once. *)
Theorem flattenProjects_preorder (rootProject : Project) (linkedProjectsData : LinkedProjects) :
  let tree := default [] (embedded_projects linkedProjectsData) in
  flattenProjects rootProject linkedProjectsData = rootProject :: preorder_forest tree
  /\ flattenProjects rootProject linkedProjectsData !! 0%nat = Some rootProject
  /\ forall f : Project -> bool,
       length (List.filter f (flattenProjects rootProject linkedProjectsData)) =
       (if f rootProject then 1 else 0) + count_forest f tree.
Proof.
  intros tree.
  assert (E : flattenProjects rootProject linkedProjectsData
              = rootProject :: preorder_forest tree).
  { unfold flattenProjects. by rewrite extractAllProjects_preorder. }
  rewrite E. split; [done|]. split; [done|].
  intros f. simpl. rewrite <- preorder_forest_count.
  destruct (f rootProject); simpl; lia.
Qed.

(** ** The ancestry path, as the loop computes it *)

Lemma split_slash_not_nil s : Js.split_slash s <> [].
Proof.
  destruct s as [|c rest]; simpl; [done|].
  destruct (Ascii.eqb c "/"); [done|].
  by destruct (Js.split_slash rest).
Qed.

Lemma last_segment_is_Some s : is_Some (Js.last_segment s).
Proof.
  unfold Js.last_segment. apply last_is_Some, split_slash_not_nil.
Qed.

(** A linked-project reference with its [project] present names no child
    once [currentId] has been cleared. *)
Lemma names_child_cleared lp :
  is_Some (project lp) -> names_child None lp = false.
Proof.
  intros [x Hx]. unfold names_child. rewrite Hx. simpl.
  by destruct (last_segment_is_Some x) as [y ->].
Qed.

Lemma links_to_cleared p :
  (forall lps, linkedProjects p = Some lps ->
               Forall (fun lp => is_Some (project lp)) lps) ->
  links_to None p = false.
Proof.
  intros H. unfold links_to. destruct (linkedProjects p) as [lps|]; [|done].
  specialize (H lps eq_refl). induction H as [|lp rest Hlp _ IH]; simpl; [done|].
  by rewrite names_child_cleared, IH.
Qed.

Lemma find_parent_cleared allProjects :
  links_defined allProjects -> find_parent allProjects None = None.
Proof.
  induction 1 as [|p rest Hp _ IH]; simpl; [done|].
  by rewrite links_to_cleared.
Qed.

Lemma links_defined_settles allProjects :
  links_defined allProjects -> path_settles allProjects.
Proof. intros H. unfold path_settles. by rewrite find_parent_cleared. Qed.

(** When the search settles the path is the target's own name, or empty
    when the target is not in the list: never more than one segment. *)
Lemma path_loop_settles fuel projectId allProjects :
  path_settles allProjects ->
  path_loop (S (S fuel)) (projectMap_of allProjects) allProjects [] (Some projectId) =
  Some (match first_lookup projectId allProjects with
        | Some p => [project_name p]
        | None => []
        end).
Proof.
  intros Hs. unfold first_lookup. cbn [path_loop].
  destruct (Js.truthy (Some projectId)); [|done]. cbn [mbind option_bind].
  destruct (projectMap_of allProjects !! projectId) as [p|]; [|done].
  by rewrite Hs.
Qed.

Lemma buildProjectPath_settles fuel projectId allProjects :
  path_settles allProjects ->
  buildProjectPath (S (S fuel)) projectId allProjects =
  Some (match first_lookup projectId allProjects with
        | Some p => project_name p
        | None => ""
        end).
Proof.
  intros Hs. unfold buildProjectPath. rewrite path_loop_settles by done.
  by destruct (first_lookup projectId allProjects).
Qed.

Lemma projectMap_of_snoc allProjects p :
  projectMap_of (allProjects ++ [p]) = <[resolved_id p := p]> (projectMap_of allProjects).
Proof. unfold projectMap_of. by rewrite map_app, foldl_app. Qed.

Lemma projectMap_of_is_Some allProjects p :
  In p allProjects -> is_Some (projectMap_of allProjects !! resolved_id p).
Proof.
  induction allProjects as [|q rest IH] using rev_ind; [done|].
  rewrite in_app_iff, projectMap_of_snoc. intros [Hin|[->|[]]].
  - destruct (decide (resolved_id q = resolved_id p)) as [->|Hne].
    + rewrite lookup_insert_eq. eauto.
    + rewrite lookup_insert_ne by done. auto.
  - rewrite lookup_insert_eq. eauto.
Qed.

Lemma truthy_or_empty v s : Js.truthy v = true -> v = Some s -> Js.or_empty v = s.
Proof. intros Ht ->. unfold Js.or_empty, Js.js_or. by rewrite Ht. Qed.

Lemma find_parent_origin allProjects :
  find_parent allProjects None = None \/
  exists p, In p allProjects /\ find_parent allProjects None = own_or_link_id p.
Proof.
  induction allProjects as [|q rest IH]; simpl; [by left|].
  destruct (links_to None q).
  - right. exists q. split; [by left|done].
  - destruct IH as [IH|(p & Hin & Hp)]; [by left|].
    right. exists p. split; [by right|done].
Qed.

(** When the search does not settle it returns, whatever the current
    project, the same identifier, which the map holds: the loop never ends. *)
Lemma path_loop_diverges allProjects :
  ~ path_settles allProjects ->
  forall fuel path,
    path_loop fuel (projectMap_of allProjects) allProjects path
              (find_parent allProjects None) = None.
Proof.
  intros Hns. unfold path_settles in Hns.
  destruct (Js.truthy (find_parent allProjects None)) eqn:Ht; [|done].
  destruct (find_parent_origin allProjects) as [E|(p & Hin & E)].
  { rewrite E in Ht. done. }
  assert (Hk : exists key, find_parent allProjects None = Some key
                           /\ is_Some (projectMap_of allProjects !! key)).
  { destruct (find_parent allProjects None) as [key|] eqn:Ek; [|done].
    exists key. split; [done|].
    assert (resolved_id p = key) as <-.
    { unfold resolved_id. rewrite <- E. by apply truthy_or_empty. }
    by apply projectMap_of_is_Some. }
  destruct Hk as (key & Ek & [q Hq]).
  induction fuel as [|fuel IH]; intros path; [done|].
  cbn [path_loop]. rewrite Ht. rewrite Ek at 1. cbn [mbind option_bind].
  rewrite Hq. apply IH.
Qed.

Lemma buildProjectPath_diverges allProjects projectId fuel :
  ~ path_settles allProjects ->
  is_Some (first_lookup projectId allProjects) ->
  buildProjectPath fuel projectId allProjects = None.
Proof.
  intros Hns [p Hp]. unfold buildProjectPath, first_lookup in *.
  destruct fuel as [|fuel]; [done|]. cbn [path_loop].
  destruct (Js.truthy (Some projectId)); [|done]. cbn [mbind option_bind].
  rewrite Hp. by rewrite path_loop_diverges.
Qed.

(** C3 (defect).  On the list [[Root; Child]], where Root references Child
    by the trailing segment of its link and nothing references Root, the
    target Child has depth 1, so the claim requires the two segments
    ["Root"; "Child"]; the loop returns the single segment ["Child"],
    because line 59 clears [currentId] before the search of line 62 reads
    it. *)
Theorem buildProjectPath_omits_parent :
  links_to (Some "c") example_root = true
  /\ links_to (Some "r") example_child = false
  /\ links_to (Some "r") example_root = false
  /\ forall fuel,
       path_loop (S (S fuel)) (projectMap_of [example_root; example_child])
                 [example_root; example_child] [] (Some "c") = Some ["Child"]
       /\ buildProjectPath (S (S fuel)) "c" [example_root; example_child] = Some "Child".
Proof.
  split; [reflexivity|]. split; [reflexivity|]. split; [reflexivity|].
  intros fuel.
  assert (Hs : path_settles [example_root; example_child]) by reflexivity.
  split.
  - by rewrite path_loop_settles.
  - by rewrite buildProjectPath_settles.
Qed.

(** ** The rows the filter builds *)

Lemma includes_fulfilledStatuses s :
  includes fulfilledStatuses s = true <->
  s = ACKNOWLEDGED_OR_FULFILLED \/ s = FULFILLED_AND_PARENT_MUST_ALSO_FULFILL.
Proof.
  unfold includes, fulfilledStatuses. cbn [existsb].
  rewrite !orb_true_iff, !String.eqb_eq. intuition discriminate.
Qed.

Lemma or_empty_Some s : Js.or_empty (Some s) = s.
Proof.
  unfold Js.or_empty, Js.js_or. simpl.
  by destruct (String.eqb_spec s "") as [->|_].
Qed.

Lemma or_empty_fulfilled (s : option string) :
  includes fulfilledStatuses (Js.or_empty s) = true <-> fulfilled s.
Proof.
  rewrite includes_fulfilledStatuses. unfold fulfilled.
  destruct s as [s|].
  - rewrite or_empty_Some. split; intros [H|H]; solve [left; congruence | right; congruence].
  - split; intros [H|H]; discriminate H.
Qed.

Lemma status_fulfilled_iff d : status_fulfilled d = true <-> fulfilled (status d).
Proof.
  unfold status_fulfilled. rewrite andb_true_iff, or_empty_fulfilled.
  split; [tauto|]. intros H. split; [|done].
  by destruct H as [-> | ->].
Qed.

Lemma parentFulfillmentOk_needs_parent projectIdProp m title d :
  status d = Some FULFILLED_AND_PARENT_MUST_ALSO_FULFILL ->
  parentFulfillmentOk projectIdProp m title d = true <-> root_fulfilled projectIdProp m title.
Proof.
  intros Hs. unfold parentFulfillmentOk, root_fulfilled. rewrite Hs.
  change (Js.strict_eq (Some FULFILLED_AND_PARENT_MUST_ALSO_FULFILL) _) with true.
  cbv iota zeta.
  destruct (Obj.get (default [] (m !! projectIdProp)) title) as [rootOb|].
  - rewrite or_empty_fulfilled. split; [eauto|]. by intros (? & [= <-] & ?).
  - split; [done|]. by intros (? & [=] & _).
Qed.

Lemma parentFulfillmentOk_other projectIdProp m title d :
  status d <> Some FULFILLED_AND_PARENT_MUST_ALSO_FULFILL ->
  parentFulfillmentOk projectIdProp m title d = true.
Proof.
  intros Hs. unfold parentFulfillmentOk.
  destruct (Js.strict_eq (status d) (Some "FULFILLED_AND_PARENT_MUST_ALSO_FULFILL")) eqn:E;
    [|done].
  destruct (status d) as [s|]; simpl in E; [|done].
  apply String.eqb_eq in E. by subst.
Qed.

Lemma mapM_option_app {A B} (f : A -> option B) (l k : list A) :
  mapM f (l ++ k) = x ← mapM f l; y ← mapM f k; Some (x ++ y).
Proof.
  induction l as [|a l IH]; simpl.
  - by destruct (mapM f k).
  - destruct (f a); simpl; [|done]. rewrite IH.
    destruct (mapM f l); simpl; [|done]. by destruct (mapM f k).
Qed.

Section AggregationFacts.
Variable fuel : nat.
Variable projectIdProp : string.
Variable allProjectsFlat : list Project.
Variable m : ObligationsMap.

Lemma aggregate_entries p entries acc :
  for_each (aggregate_entry fuel projectIdProp allProjectsFlat m p (resolved_id p)) entries acc =
  (rows ← mapM (row_for fuel allProjectsFlat)
               (map (pair p) (List.filter (included projectIdProp m) entries));
   Some (acc ++ rows)).
Proof.
  revert acc. induction entries as [|[title d] rest IH]; intros acc; simpl.
  - by rewrite app_nil_r.
  - unfold included at 1. simpl.
    destruct (status_fulfilled d); simpl; [|apply IH].
    destruct (parentFulfillmentOk projectIdProp m title d); simpl; [|apply IH].
    change (row_for fuel allProjectsFlat (p, (title, d)))
      with (path ← buildProjectPath fuel (resolved_id p) allProjectsFlat;
            Some (row_of p (title, d) path)).
    destruct (buildProjectPath fuel (resolved_id p) allProjectsFlat) as [path|]; simpl; [|done].
    rewrite IH.
    destruct (mapM _ _); simpl; [|done]. by rewrite <- app_assoc.
Qed.

Lemma aggregate_project_eq acc p :
  aggregate_project fuel projectIdProp allProjectsFlat m acc p =
  for_each (aggregate_entry fuel projectIdProp allProjectsFlat m p (resolved_id p))
           (default [] (m !! resolved_id p)) acc.
Proof. reflexivity. Qed.

Lemma aggregate_projects projects acc :
  for_each (aggregate_project fuel projectIdProp allProjectsFlat m) projects acc =
  (rows ← mapM (row_for fuel allProjectsFlat) (selected projectIdProp m projects);
   Some (acc ++ rows)).
Proof.
  revert acc. induction projects as [|p rest IH]; intros acc; simpl.
  - by rewrite app_nil_r.
  - rewrite aggregate_project_eq, aggregate_entries, mapM_option_app.
    destruct (mapM _ (map _ _)) as [rows1|]; simpl; [|done].
    rewrite IH. unfold selected.
    destruct (mapM _ (flat_map _ _)) as [rows2|]; simpl; [|done].
    by rewrite app_assoc.
Qed.

(** The rows are built, in order, from the entries that pass the filter. *)
Lemma aggregateObligations_selected :
  aggregateObligations fuel projectIdProp allProjectsFlat m =
  mapM (row_for fuel allProjectsFlat) (selected projectIdProp m allProjectsFlat).
Proof.
  unfold aggregateObligations. rewrite aggregate_projects.
  by destruct (mapM _ _).
Qed.

Lemma selected_In p entry :
  In (p, entry) (selected projectIdProp m allProjectsFlat) <->
  In p allProjectsFlat
  /\ In entry (default [] (m !! resolved_id p))
  /\ included projectIdProp m entry = true.
Proof.
  unfold selected, Obj.entries. rewrite in_flat_map. split.
  - intros (q & Hq & Hin). apply in_map_iff in Hin as (e & [= <- <-] & He).
    apply List.filter_In in He. tauto.
  - intros (Hp & He & Hi). exists p. split; [done|].
    apply in_map_iff. exists entry. split; [done|]. by apply List.filter_In.
Qed.

Lemma rows_from_selected rows r :
  aggregateObligations fuel projectIdProp allProjectsFlat m = Some rows ->
  In r rows ->
  exists p entry path,
    In (p, entry) (selected projectIdProp m allProjectsFlat)
    /\ buildProjectPath fuel (resolved_id p) allProjectsFlat = Some path
    /\ r = row_of p entry path.
Proof.
  rewrite aggregateObligations_selected. intros H%mapM_Some_1 Hr.
  induction H as [|[p entry] r' sels rows' Hrow _ IH]; [done|].
  destruct Hr as [->|Hr].
  - unfold row_for in Hrow. simpl in Hrow.
    destruct (buildProjectPath fuel (resolved_id p) allProjectsFlat) as [path|] eqn:E;
      [|done].
    injection Hrow as <-. exists p, entry, path. split; [by left|done].
  - destruct (IH Hr) as (p' & e' & path & Hin & Hp & ->).
    exists p', e', path. split; [by right|done].
Qed.

Lemma selected_to_rows rows p entry :
  aggregateObligations fuel projectIdProp allProjectsFlat m = Some rows ->
  In (p, entry) (selected projectIdProp m allProjectsFlat) ->
  exists path,
    buildProjectPath fuel (resolved_id p) allProjectsFlat = Some path
    /\ In (row_of p entry path) rows.
Proof.
  rewrite aggregateObligations_selected. intros H%mapM_Some_1 Hs.
  induction H as [|[p' entry'] r' sels rows' Hrow _ IH]; [done|].
  destruct Hs as [[= -> ->]|Hs].
  - unfold row_for in Hrow. simpl in Hrow.
    destruct (buildProjectPath fuel (resolved_id p) allProjectsFlat) as [path|] eqn:E;
      [|done].
    injection Hrow as <-. exists path. split; [done|by left].
  - destruct (IH Hs) as (path & Hp & Hin). exists path. split; [done|by right].
Qed.

End AggregationFacts.

(** The aggregation returns as soon as the parent search settles, which it
    does whenever every linked-project reference carries its [project]. *)
Lemma aggregateObligations_returns fuel projectIdProp allProjectsFlat m :
  path_settles allProjectsFlat ->
  is_Some (aggregateObligations (S (S fuel)) projectIdProp allProjectsFlat m).
Proof.
  intros Hs. rewrite aggregateObligations_selected. apply mapM_is_Some_2.
  apply Forall_forall. intros sel _. unfold compose, row_for.
  by rewrite buildProjectPath_settles.
Qed.

Lemma get_In {V} (o : JsObject V) key v : Obj.get o key = Some v -> In (key, v) o.
Proof.
  induction o as [|[k w] rest IH]; simpl; [done|].
  destruct (String.eqb_spec k key) as [->|_].
  - intros [= ->]. by left.
  - intros H. right. by apply IH.
Qed.

(** C1.  Every row of the output carries one of the two fulfilled statuses,
    and is the entry its title names in the map of a project of the flat
    list: an entry with any other status, or with none, yields no row. *)
Theorem aggregated_rows_fulfilled fuel projectIdProp allProjectsFlat
    (m : ObligationsMap) rows :
  aggregateObligations fuel projectIdProp allProjectsFlat m = Some rows ->
  forall r, In r rows ->
    fulfilled (status (detail r))
    /\ exists p, In p allProjectsFlat
                 /\ projectId r = resolved_id p
                 /\ In (obligationTitle r, detail r) (default [] (m !! projectId r)).
Proof.
  intros Hagg r Hr.
  destruct (rows_from_selected _ _ _ _ _ _ Hagg Hr) as (p & [title d] & path & Hsel & _ & ->).
  apply selected_In in Hsel as (Hp & He & Hinc).
  unfold included in Hinc. apply andb_true_iff in Hinc as [Hst _].
  split; [by apply status_fulfilled_iff|].
  exists p. by repeat split.
Qed.

Lemma parent_must_also_fulfill_rows fuel projectIdProp allProjectsFlat
    (m : ObligationsMap) rows p title d :
  aggregateObligations fuel projectIdProp allProjectsFlat m = Some rows ->
  In p allProjectsFlat ->
  In (title, d) (default [] (m !! resolved_id p)) ->
  status d = Some FULFILLED_AND_PARENT_MUST_ALSO_FULFILL ->
  root_fulfilled projectIdProp m title ->
  exists path, In (row_of p (title, d) path) rows.
Proof.
  intros Hagg Hp He Hst Hroot.
  assert (Hsel : In (p, (title, d)) (selected projectIdProp m allProjectsFlat)).
  { apply selected_In. repeat split; [done..|].
    unfold included. apply andb_true_iff. split.
    - apply status_fulfilled_iff. by right.
    - by apply parentFulfillmentOk_needs_parent. }
  destruct (selected_to_rows _ _ _ _ _ _ _ Hagg Hsel) as (path & _ & Hin). eauto.
Qed.

(** X23.  In every output of the aggregation, an obligation of a project of
    the flat list whose status is FULFILLED_AND_PARENT_MUST_ALSO_FULFILL has
    its row exactly when the map of the root project holds, under the same
    title, an obligation with a fulfilled status.  The aggregation returns
    an output whenever the parent search settles. *)
Theorem parent_must_also_fulfill projectIdProp allProjectsFlat
    (m : ObligationsMap) p title d :
  In p allProjectsFlat ->
  In (title, d) (default [] (m !! resolved_id p)) ->
  status d = Some FULFILLED_AND_PARENT_MUST_ALSO_FULFILL ->
  (path_settles allProjectsFlat ->
   forall fuel, is_Some (aggregateObligations (S (S fuel)) projectIdProp allProjectsFlat m))
  /\ forall fuel rows,
       aggregateObligations fuel projectIdProp allProjectsFlat m = Some rows ->
       (exists path, In (row_of p (title, d) path) rows)
       <-> root_fulfilled projectIdProp m title.
Proof.
  intros Hp He Hst. split.
  { intros Hs fuel. by apply aggregateObligations_returns. }
  intros fuel rows Hagg. split.
  - intros [path Hr].
    destruct (rows_from_selected _ _ _ _ _ _ Hagg Hr) as (p' & [t' d'] & path' & Hsel & _ & E).
    injection E as <- _ _ _ <- _.
    apply selected_In in Hsel as (_ & _ & Hinc).
    unfold included in Hinc. apply andb_true_iff in Hinc as [_ Hok]. simpl in Hok.
    by apply parentFulfillmentOk_needs_parent in Hok.
  - intros Hroot. by eapply parent_must_also_fulfill_rows.
Qed.

(** X24.  When the root project resolves to the identifier the aggregation
    was given, an obligation its own map holds with status
    FULFILLED_AND_PARENT_MUST_ALSO_FULFILL passes the parent check by itself,
    and its row is in every output.  The aggregation returns an output
    whenever the parent search settles. *)
Theorem root_satisfies_own_parent_check projectIdProp allProjectsFlat
    (m : ObligationsMap) p title d :
  In p allProjectsFlat ->
  resolved_id p = projectIdProp ->
  Obj.get (default [] (m !! projectIdProp)) title = Some d ->
  status d = Some FULFILLED_AND_PARENT_MUST_ALSO_FULFILL ->
  parentFulfillmentOk projectIdProp m title d = true
  /\ (path_settles allProjectsFlat ->
      forall fuel, is_Some (aggregateObligations (S (S fuel)) projectIdProp allProjectsFlat m))
  /\ forall fuel rows,
       aggregateObligations fuel projectIdProp allProjectsFlat m = Some rows ->
       exists path, In (row_of p (title, d) path) rows.
Proof.
  intros Hp Hid Hget Hst.
  assert (Hroot : root_fulfilled projectIdProp m title).
  { exists d. split; [done|]. by right. }
  split; [by apply parentFulfillmentOk_needs_parent|]. split.
  { intros Hs fuel. by apply aggregateObligations_returns. }
  intros fuel rows Hagg.
  eapply parent_must_also_fulfill_rows; eauto.
  rewrite Hid. by apply get_In.
Qed.

(** An entry that passes the filter has its path built on line 300 before
    its row is pushed: when the parent search does not settle, that call
    never returns, and neither does the aggregation. *)
Lemma selected_entry_never_built fuel projectIdProp allProjectsFlat (m : ObligationsMap)
    p entry :
  In (p, entry) (selected projectIdProp m allProjectsFlat) ->
  resolved_id p <> "" ->
  ~ path_settles allProjectsFlat ->
  aggregateObligations fuel projectIdProp allProjectsFlat m = None.
Proof.
  intros Hsel Hid Hns.
  destruct (aggregateObligations fuel projectIdProp allProjectsFlat m) as [rows|] eqn:Hagg;
    [|done].
  destruct (selected_to_rows _ _ _ _ _ _ _ Hagg Hsel) as (path & Hpath & _).
  rewrite buildProjectPath_diverges in Hpath; [done..|].
  unfold first_lookup.
  assert (Ht : Js.truthy (Some (resolved_id p)) = true).
  { simpl. destruct (String.eqb_spec (resolved_id p) ""); done. }
  rewrite Ht. apply projectMap_of_is_Some.
  by apply selected_In in Hsel as (Hp & _).
Qed.

(** C2 (defect).  The row of an obligation with status
    FULFILLED_AND_PARENT_MUST_ALSO_FULFILL whose title the root fulfils is
    not included when the parent search does not settle, as when a project
    with an identifier has a reference without [project]: line 59 clears
    [currentId], the callback of line 62 takes that reference for one to the
    cleared [currentId], and the loop that builds the path of the row on
    line 300 never ends.  The aggregation has no output, at any amount of
    fuel. *)
Theorem parent_must_row_never_built projectIdProp allProjectsFlat
    (m : ObligationsMap) p title d :
  In p allProjectsFlat ->
  In (title, d) (default [] (m !! resolved_id p)) ->
  status d = Some FULFILLED_AND_PARENT_MUST_ALSO_FULFILL ->
  root_fulfilled projectIdProp m title ->
  resolved_id p <> "" ->
  ~ path_settles allProjectsFlat ->
  forall fuel, aggregateObligations fuel projectIdProp allProjectsFlat m = None.
Proof.
  intros Hp He Hst Hroot Hid Hns fuel.
  apply (selected_entry_never_built fuel projectIdProp allProjectsFlat m p (title, d));
    [|done..].
  apply selected_In. repeat split; [done..|].
  unfold included. apply andb_true_iff. split.
  - apply status_fulfilled_iff. by right.
  - by apply parentFulfillmentOk_needs_parent.
Qed.

(** C10 (defect).  An obligation of the root itself with status
    FULFILLED_AND_PARENT_MUST_ALSO_FULFILL passes the parent check, yet its
    row is not included when the parent search does not settle, as when the
    root has a reference without [project]: the loop that builds the path of
    the row on line 300 never ends (line 59 clears [currentId] before the
    callback of line 62 reads it), and the aggregation has no output, at any
    amount of fuel. *)
Theorem root_row_never_built projectIdProp allProjectsFlat
    (m : ObligationsMap) p title d :
  In p allProjectsFlat ->
  resolved_id p = projectIdProp ->
  Obj.get (default [] (m !! projectIdProp)) title = Some d ->
  status d = Some FULFILLED_AND_PARENT_MUST_ALSO_FULFILL ->
  projectIdProp <> "" ->
  ~ path_settles allProjectsFlat ->
  parentFulfillmentOk projectIdProp m title d = true
  /\ forall fuel, aggregateObligations fuel projectIdProp allProjectsFlat m = None.
Proof.
  intros Hp Hid Hget Hst Hne Hns.
  assert (Hok : parentFulfillmentOk projectIdProp m title d = true).
  { apply parentFulfillmentOk_needs_parent; [done|]. exists d. split; [done|]. by right. }
  split; [done|]. intros fuel.
  apply (selected_entry_never_built fuel projectIdProp allProjectsFlat m p (title, d));
    [|by rewrite Hid|done].
  apply selected_In. split; [done|]. split.
  - rewrite Hid. by apply get_In.
  - unfold included. apply andb_true_iff. split; [|done].
    apply status_fulfilled_iff. by right.
Qed.

(** ** One row per pair *)

Lemma rows_keys fuel projectIdProp allProjectsFlat (m : ObligationsMap) rows :
  aggregateObligations fuel projectIdProp allProjectsFlat m = Some rows ->
  row_key <$> rows = sel_key <$> selected projectIdProp m allProjectsFlat.
Proof.
  rewrite aggregateObligations_selected. intros H%mapM_Some_1.
  induction H as [|[p e] r sels rows' Hrow _ IH]; [done|].
  rewrite !fmap_cons, IH. f_equal.
  unfold row_for in Hrow. simpl in Hrow.
  destruct (buildProjectPath _ _ _); [|done]. by injection Hrow as <-.
Qed.

Lemma passes_selected projectIdProp (m : ObligationsMap) allProjectsFlat key :
  passes projectIdProp m allProjectsFlat key <->
  In key (sel_key <$> selected projectIdProp m allProjectsFlat).
Proof.
  destruct key as [k title]. unfold passes. simpl. split.
  - intros (p & d & Hp & <- & He & Hinc).
    apply in_map_iff. exists (p, (title, d)). split; [done|].
    by apply selected_In.
  - intros ([p [t d]] & [= <- <-] & Hsel)%in_map_iff.
    apply selected_In in Hsel as (Hp & He & Hinc). by exists p, d.
Qed.

Lemma entries_keys_NoDup {V} (f : string * V -> bool) (k : string) (o : JsObject V) :
  NoDup o.*1 -> NoDup ((fun e => (k, e.1)) <$> List.filter f o).
Proof.
  induction o as [|[t v] rest IH]; simpl; [constructor|].
  intros [Hnot Hnd]%NoDup_cons. specialize (IH Hnd).
  destruct (f (t, v)); [|done].
  simpl. apply NoDup_cons. split; [|done].
  intros ([t' v'] & [= <-] & Hin%list_elem_of_In%List.filter_In)%list_elem_of_fmap.
  apply Hnot. apply list_elem_of_fmap. exists (t, v'). split; [done|].
  apply list_elem_of_In. tauto.
Qed.

Lemma selected_keys_NoDup projectIdProp (m : ObligationsMap) allProjectsFlat :
  NoDup (resolved_id <$> allProjectsFlat) ->
  Forall (fun p => NoDup (default [] (m !! resolved_id p)).*1) allProjectsFlat ->
  NoDup (sel_key <$> selected projectIdProp m allProjectsFlat).
Proof.
  intros Hflat Hm. induction allProjectsFlat as [|p rest IH]; [constructor|].
  simpl in Hflat. apply NoDup_cons in Hflat as [Hp Hrest].
  apply Forall_cons in Hm as [Hmp Hm].
  change (selected projectIdProp m (p :: rest))
    with (map (pair p) (List.filter (included projectIdProp m)
                                    (default [] (m !! resolved_id p)))
          ++ selected projectIdProp m rest).
  rewrite fmap_app. apply NoDup_app. split; [|split; [|by apply IH]].
  - change (@map) with (@fmap list _). rewrite <- list_fmap_compose.
    by apply (entries_keys_NoDup _ (resolved_id p)).
  - intros [k t] Hl Hr. apply Hp.
    apply list_elem_of_fmap in Hl as ([p1 e1] & [= -> ->] & Hl).
    apply list_elem_of_In, in_map_iff in Hl as (e & [= <- <-] & _).
    apply list_elem_of_fmap in Hr as ([p2 e2] & [= Hk _] & Hr).
    apply list_elem_of_In, selected_In in Hr as (Hin & _).
    simpl in Hk. rewrite Hk. apply list_elem_of_fmap. exists p2.
    split; [done|by apply list_elem_of_In].
Qed.

(** C9 (as stated, refuted).  A project linked from two projects of the tree
    occurs twice in the flat list, and each occurrence emits the row of its
    pair: the pair ("d", "Attribution") is emitted twice. *)
Lemma shared_project_rows_repeat :
  exists rows,
    aggregateObligations 2 "r" example_diamond example_diamond_map = Some rows
    /\ map row_key rows = [("d", "Attribution"); ("d", "Attribution")]
    /\ ~ one_row_per_pair "r" example_diamond_map example_diamond rows.
Proof.
  eexists. split; [vm_compute; reflexivity|]. split; [reflexivity|].
  intros [Hnd _]. simpl in Hnd.
  apply NoDup_cons in Hnd as [Hnot _]. apply Hnot. left.
Qed.

(** C9 (amended).  Over a flat list whose projects resolve to pairwise
    distinct identifiers (and maps whose titles are distinct, as the own
    keys of an object are), the output has exactly one row per pair that
    passes the inclusion filter.  The aggregation returns an output
    whenever the parent search settles. *)
Theorem one_row_per_pair_distinct_projects projectIdProp allProjectsFlat
    (m : ObligationsMap) :
  NoDup (resolved_id <$> allProjectsFlat) ->
  Forall (fun p => NoDup (default [] (m !! resolved_id p)).*1) allProjectsFlat ->
  (path_settles allProjectsFlat ->
   forall fuel, is_Some (aggregateObligations (S (S fuel)) projectIdProp allProjectsFlat m))
  /\ forall fuel rows,
       aggregateObligations fuel projectIdProp allProjectsFlat m = Some rows ->
       one_row_per_pair projectIdProp m allProjectsFlat rows.
Proof.
  intros Hflat Hm. split.
  { intros Hs fuel. by apply aggregateObligations_returns. }
  intros fuel rows Hagg. unfold one_row_per_pair.
  rewrite (rows_keys _ _ _ _ _ Hagg). split.
  - by apply selected_keys_NoDup.
  - intros key. apply passes_selected.
Qed.

(** ** Objects enumerate their titles in the order they were written *)

Lemma get_fresh {V} (o : JsObject V) key : key ∉ o.*1 -> Obj.get o key = None.
Proof.
  induction o as [|[k w] rest IH]; simpl; [done|].
  intros [Hne Hn]%not_elem_of_cons.
  destruct (String.eqb_spec k key) as [->|_]; [done|]. by apply IH.
Qed.

Lemma define_index_last {V} (o : JsObject V) key n v :
  Forall (fun k => exists i, Obj.array_index k = Some i /\ (i < n)%N) o.*1 ->
  Obj.define_index o key n v = o ++ [(key, v)].
Proof.
  induction o as [|[k w] rest IH]; simpl; [done|].
  intros [(i & Hi & Hlt) Hrest]%Forall_cons. rewrite Hi.
  destruct (N.ltb_spec n i); [lia|]. by rewrite IH.
Qed.

Lemma ordered_keys_snoc keys key :
  Obj.ordered_keys (keys ++ [key]) -> Forall (before key) keys.
Proof.
  induction keys as [|k rest IH]; simpl; [constructor|].
  intros [Hk Hrest]. constructor; [|by apply IH].
  unfold before. destruct (Obj.array_index k) as [i|].
  - apply Forall_app in Hk as [_ Hk]. by rewrite Forall_singleton in Hk.
  - apply Forall_app in Hk as [_ Hk]. by rewrite Forall_singleton in Hk.
Qed.

Lemma ordered_keys_prefix keys more :
  Obj.ordered_keys (keys ++ more) -> Obj.ordered_keys keys.
Proof.
  induction keys as [|k rest IH]; simpl; [done|].
  intros [Hk Hrest]. split; [|by apply IH].
  destruct (Obj.array_index k); by apply Forall_app in Hk as [Hk _].
Qed.

Lemma well_formed_prefix {V} (o more : JsObject V) :
  Obj.well_formed (o ++ more) -> Obj.well_formed o.
Proof.
  unfold Obj.well_formed. rewrite fmap_app. intros [Hnd Ho]. split.
  - by apply NoDup_app in Hnd as [Hnd _].
  - by eapply ordered_keys_prefix.
Qed.

(** A title written after the others, in enumeration order, is enumerated
    last. *)
Lemma set_fresh {V} (o : JsObject V) key v :
  Obj.well_formed (o ++ [(key, v)]) -> Obj.set o key v = o ++ [(key, v)].
Proof.
  unfold Obj.well_formed. rewrite fmap_app. simpl. intros [Hnd Ho].
  apply NoDup_app in Hnd as (_ & Hfresh & _).
  assert (Hnot : key ∉ o.*1).
  { intros Hin. apply (Hfresh key Hin). by left. }
  unfold Obj.set, Obj.has. rewrite (get_fresh _ _ Hnot).
  apply ordered_keys_snoc in Ho. unfold Obj.define.
  destruct (Obj.array_index key) as [n|] eqn:En; [|done].
  apply define_index_last. eapply Forall_impl; [exact Ho|].
  intros k Hk. unfold before in Hk. rewrite En in Hk.
  destruct (Obj.array_index k) as [i|]; [eauto|done].
Qed.

Lemma set_entries_in_order {V} (es o : JsObject V) :
  Obj.well_formed (o ++ es) -> foldl set_entry o es = o ++ es.
Proof.
  revert o. induction es as [|[key v] rest IH]; intros o Hwf; simpl.
  - by rewrite app_nil_r.
  - replace (o ++ (key, v) :: rest) with ((o ++ [(key, v)]) ++ rest) in *
      by (by rewrite <- app_assoc).
    change (set_entry o (key, v)) with (Obj.set o key v).
    rewrite set_fresh by (by eapply well_formed_prefix).
    by apply IH.
Qed.

Lemma ordered_keys_filter (f : string -> bool) keys :
  Obj.ordered_keys keys -> Obj.ordered_keys (List.filter f keys).
Proof.
  induction keys as [|k rest IH]; [done|]. cbn [Obj.ordered_keys List.filter].
  intros [Hk Hrest]. destruct (f k); [|by apply IH].
  cbn [Obj.ordered_keys]. split; [|by apply IH].
  destruct (Obj.array_index k); (eapply incl_Forall; [|exact Hk]);
    intros x Hx; by apply List.filter_In in Hx as [Hx _].
Qed.

Lemma own_entries_keys {V} (es : JsObject V) :
  (own_entries es).*1 = List.filter (fun k => negb (String.eqb k "__proto__")) es.*1.
Proof.
  induction es as [|[k v] rest IH]; [done|].
  unfold own_entries in *. rewrite fmap_cons. cbn [List.filter fst].
  destruct (negb (String.eqb k "__proto__")); [rewrite fmap_cons|]; by rewrite IH.
Qed.

(** The entries that become properties are still in enumeration order. *)
Lemma own_entries_well_formed {V} (es : JsObject V) :
  Obj.well_formed es -> Obj.well_formed (own_entries es).
Proof.
  unfold Obj.well_formed. rewrite own_entries_keys. intros [Hnd Ho]. split.
  - apply NoDup_ListNoDup, List.NoDup_filter. by apply NoDup_ListNoDup.
  - by apply ordered_keys_filter.
Qed.

Lemma own_entries_cons {V} (title : string) (v : V) (rest : JsObject V) :
  own_entries ((title, v) :: rest) =
  if String.eqb title "__proto__" then own_entries rest
  else (title, v) :: own_entries rest.
Proof. unfold own_entries. cbn [List.filter fst]. by destruct (String.eqb title "__proto__"). Qed.

Lemma store_entries_lookup pId (es o : JsObject ObligationData) (m : ObligationsMap) :
  m !! pId = Some o ->
  foldl (store_entry pId) m es !! pId = Some (foldl set_entry o (own_entries es)).
Proof.
  revert m o. induction es as [|[title d] rest IH]; intros m o Hm; [done|].
  rewrite own_entries_cons. cbn [foldl store_entry].
  destruct (String.eqb title "__proto__"); [by apply IH|].
  cbn [foldl]. apply IH. by rewrite lookup_insert_eq, Hm.
Qed.

Lemma store_entries_other pId k (es : JsObject ObligationData) (m : ObligationsMap) :
  k <> pId -> foldl (store_entry pId) m es !! k = m !! k.
Proof.
  intros Hne. revert m. induction es as [|[title d] rest IH]; intros m; [done|].
  cbn [foldl store_entry]. rewrite IH.
  destruct (String.eqb title "__proto__"); [done|]. by rewrite lookup_insert_ne.
Qed.

(** The object the fetch loop builds for a project enumerates the titles of
    the response in the order the loop wrote them; the title "__proto__" is
    not among them. *)
Lemma stored_in_insertion_order pId (es : JsObject ObligationData) (m : ObligationsMap) :
  Obj.well_formed es ->
  foldl (store_entry pId) (<[pId := []]> m) (Obj.entries es) !! pId = Some (own_entries es).
Proof.
  intros Hwf. unfold Obj.entries.
  rewrite (store_entries_lookup _ _ []) by apply lookup_insert_eq.
  rewrite (set_entries_in_order (own_entries es) []); [done|].
  by apply own_entries_well_formed.
Qed.

(** ** The fetch loop *)

Lemma fetch_project_run backend (m : ObligationsMap) p w :
  fetch_project backend m p w =
  if Js.truthy (Some (resolved_id p))
  then (Returns (fetched (get_licenseObligations backend (length (requests w)) (resolved_id p))
                         (resolved_id p) m),
        sent w [obligations_endpoint (resolved_id p)])
  else (Returns m, w).
Proof.
  unfold fetch_project. destruct (Js.truthy (Some (resolved_id p))); [|done].
  cbn [negb]. unfold try_catch, GET, fetched, sent, obligations_endpoint.
  cbv [mbind Async_bind fmap Async_fmap mret Async_ret await throw console_error].
  destruct (get_licenseObligations backend (length (requests w)) (resolved_id p))
    as [e|res]; [done|].
  destruct (response_status res =? OK)%Z; [|done].
  destruct (json res) as [e|body]; [done|].
  by destruct (obligations (as_typed body)).
Qed.

(** The loop never throws: whatever a request does, an [AbortError]
    included, the loop goes on to the next project and returns a map. *)
Lemma fetch_loop_run backend projects (m : ObligationsMap) w :
  fetch_loop backend projects m w =
  let out := fetch_all (get_licenseObligations backend) (length (requests w)) projects m in
  (Returns out.1, sent w out.2).
Proof.
  revert m w. induction projects as [|p rest IH]; intros m w.
  - cbn. unfold sent. rewrite app_nil_r. by destruct w.
  - cbn [fetch_loop fetch_all]. cbv [mbind Async_bind]. rewrite fetch_project_run.
    destruct (Js.truthy (Some (resolved_id p))).
    + rewrite IH. cbn [sent requests]. rewrite length_app. cbn [length].
      replace (length (requests w) + 1) with (S (length (requests w))) by lia.
      destruct (fetch_all _ _ _ _) as [m' endpoints]. cbn.
      unfold sent. cbn. by rewrite <- app_assoc.
    + apply IH.
Qed.

(** ** A run, from the answers alone *)

Lemma fetch_projects_run backend projectIdProp w :
  fetch_projects backend projectIdProp w =
  let n := length (requests w) in
  match checked (get_project backend n projectIdProp) with
  | Throws e => (Throws e, sent w [root_endpoint projectIdProp])
  | Diverges => (Diverges, sent w [root_endpoint projectIdProp])
  | Returns rootProject =>
      let sent2 := [root_endpoint projectIdProp; tree_endpoint projectIdProp] in
      match checked (get_linkedProjects backend (S n) projectIdProp) with
      | Throws e => (Throws e, sent w sent2)
      | Diverges => (Diverges, sent w sent2)
      | Returns linkedProjectsData =>
          (Returns (flattenProjects rootProject linkedProjectsData), sent w sent2)
      end
  end.
Proof.
  unfold fetch_projects, GET, checked, sent, root_endpoint, tree_endpoint.
  cbv [mbind Async_bind fmap Async_fmap mret Async_ret await throw].
  cbv zeta.
  destruct (get_project backend (length (requests w)) projectIdProp) as [e|res]; [done|].
  destruct (json res) as [e|body];
    destruct (negb (response_status res =? OK)%Z); try done.
  cbn [requests]. rewrite length_app. cbn [length].
  replace (length (requests w) + 1) with (S (length (requests w))) by lia.
  destruct (get_linkedProjects backend (S (length (requests w))) projectIdProp)
    as [e|res']; cbn; [by rewrite <- app_assoc|].
  destruct (json res') as [e|body'];
    destruct (negb (response_status res' =? OK)%Z); cbn; by rewrite <- app_assoc.
Qed.

(** The effect does to the view what [settle] says of its [summary]. *)
Lemma loadObligations_run backend fuel projectIdProp w :
  loadObligations backend fuel projectIdProp w =
  settle w (summary backend fuel projectIdProp (length (requests w))).
Proof.
  unfold loadObligations, try_finally, try_catch, load_try, summary.
  cbv [mbind Async_bind mret Async_ret setShowProcessing].
  rewrite fetch_projects_run. cbn [requests]. cbv zeta.
  destruct (checked (get_project backend (length (requests w)) projectIdProp))
    as [rootProject|e|]; [| destruct e as [| |[|]]; cbn; by rewrite ?app_nil_r |done].
  destruct (checked (get_linkedProjects backend (S (length (requests w))) projectIdProp))
    as [linkedProjectsData|e|]; [| destruct e as [| |[|]]; cbn; by rewrite ?app_nil_r |done].
  rewrite fetch_loop_run. cbn [sent requests]. rewrite length_app. cbn [length].
  replace (length (requests w) + 2) with (S (S (length (requests w)))) by lia.
  destruct (fetch_all _ _ _ _) as [m endpoints]. cbn [fst snd].
  unfold of_fuelled, setAggregatedObligations, sent.
  destruct (aggregateObligations _ _ _ _) as [rows|]; cbn; by rewrite <- app_assoc.
Qed.

(** ** Cancellation *)

(** A run cancelled before the obligation fetches is discarded: the
    [catch] block returns on the [AbortError]. *)
Lemma cancelled_before_obligations backend fuel projectIdProp w endpoints :
  summary backend fuel projectIdProp (length (requests w)) = Failed AbortError endpoints ->
  let out := loadObligations backend fuel projectIdProp w in
  aggregatedObligations out.2 = aggregatedObligations w
  /\ errorMessages out.2 = errorMessages w.
Proof.
  intros Hs. rewrite loadObligations_run, Hs. simpl. by rewrite app_nil_r.
Qed.

(** C5 (defect).  The run is cancelled while the obligations of the second
    project are fetched.  The [catch] of line 267 takes the [AbortError],
    the loop ends, and line 307 writes the rows gathered so far to the
    state: the row list changes from empty to the root's row. *)
Theorem cancelled_obligation_fetch_writes_rows :
  get_licenseObligations backend_cancelled_mid_fetch 3 "c" = Rejects AbortError
  /\ loadObligations backend_cancelled_mid_fetch 2 "r" empty_view =
     (Returns tt,
      mkView [row_of example_root
                     ("Attribution", obligation_with ACKNOWLEDGED_OR_FULFILLED) "Root"]
             false []
             ["projects/r"; "projects/r/linkedProjects?transitive=true&expand=true";
              "projects/r/licenseObligations"; "projects/c/licenseObligations"])
  /\ aggregatedObligations
       (loadObligations backend_cancelled_mid_fetch 2 "r" empty_view).2
     <> aggregatedObligations empty_view.
Proof.
  split; [reflexivity|].
  assert (E : loadObligations backend_cancelled_mid_fetch 2 "r" empty_view =
     (Returns tt,
      mkView [row_of example_root
                     ("Attribution", obligation_with ACKNOWLEDGED_OR_FULFILLED) "Root"]
             false []
             ["projects/r"; "projects/r/linkedProjects?transitive=true&expand=true";
              "projects/r/licenseObligations"; "projects/c/licenseObligations"]))
    by (vm_compute; reflexivity).
  split; [exact E|]. rewrite E. discriminate.
Qed.

(** ** A failed obligation fetch *)

Lemma fetched_failure backend pid n (m : ObligationsMap) :
  obligations_fetch_fails backend pid ->
  fetched (get_licenseObligations backend n pid) pid m = <[pid := []]> m.
Proof.
  intros Hf. destruct (Hf n) as (res & -> & Hres). unfold fetched.
  destruct Hres as [Hst|[e He]].
  - destruct (Z.eqb_spec (response_status res) OK); done.
  - rewrite He. by destruct (response_status res =? OK)%Z.
Qed.

Lemma fetch_all_answering_nothing backend pid n projects (m : ObligationsMap) :
  obligations_fetch_fails backend pid ->
  fetch_all (get_licenseObligations (answering_nothing backend pid)) n projects m =
  fetch_all (get_licenseObligations backend) n projects m.
Proof.
  intros Hf. revert n m. induction projects as [|p rest IH]; intros n m; [done|].
  cbn [fetch_all]. cbv zeta.
  destruct (Js.truthy (Some (resolved_id p))); [|apply IH].
  rewrite IH. cbn [answering_nothing get_licenseObligations].
  destruct (String.eqb_spec (resolved_id p) pid) as [->|_]; [|done].
  by rewrite fetched_failure.
Qed.

Lemma fetched_other answer pId k (m : ObligationsMap) :
  k <> pId -> fetched answer pId m !! k = m !! k.
Proof.
  intros Hne. unfold fetched.
  assert (Hm : (<[pId := []]> m : ObligationsMap) !! k = m !! k)
    by (by rewrite lookup_insert_ne).
  destruct answer as [e|res]; [done|].
  destruct (response_status res =? OK)%Z; [|done].
  destruct (json res) as [e|body]; [done|].
  destruct (obligations (as_typed body)); [|done].
  by rewrite store_entries_other.
Qed.

Lemma fetch_all_failure_empty backend pid n projects (m : ObligationsMap) :
  obligations_fetch_fails backend pid ->
  default [] (m !! pid) = [] ->
  default [] ((fetch_all (get_licenseObligations backend) n projects m).1 !! pid) = [].
Proof.
  intros Hf. revert n m. induction projects as [|p rest IH]; intros n m Hm; [done|].
  cbn [fetch_all]. cbv zeta.
  destruct (Js.truthy (Some (resolved_id p))); [|by apply IH].
  specialize (IH (S n) (fetched (get_licenseObligations backend n (resolved_id p))
                                (resolved_id p) m)).
  destruct (fetch_all _ _ _ _) as [m' endpoints]. simpl in *. apply IH.
  destruct (decide (resolved_id p = pid)) as [->|Hne].
  - rewrite fetched_failure by done. by rewrite lookup_insert_eq.
  - by rewrite fetched_other.
Qed.

Lemma rows_of_empty_project fuel projectIdProp allProjectsFlat (m : ObligationsMap) rows pid :
  aggregateObligations fuel projectIdProp allProjectsFlat m = Some rows ->
  default [] (m !! pid) = [] ->
  Forall (fun r => projectId r <> pid) rows.
Proof.
  intros Hagg Hm. apply List.Forall_forall. intros r Hr Hid.
  destruct (rows_from_selected _ _ _ _ _ _ Hagg Hr) as (p & e & path & Hsel & _ & ->).
  apply selected_In in Hsel as (_ & He & _). simpl in Hid.
  by rewrite Hid, Hm in He.
Qed.

(** C6.  When the obligation fetch of a project fails (a non-success status
    or a body that does not parse), the run is the run in which that
    project answers with no obligations: the other fetches and the
    aggregation go on as they would, no error is sent for it, and no row of
    the output belongs to it.  The fetch loop itself always returns and
    sends no error. *)
Theorem failed_project_contributes_nothing backend fuel projectIdProp pid w :
  obligations_fetch_fails backend pid ->
  let out := loadObligations backend fuel projectIdProp w in
  out = loadObligations (answering_nothing backend pid) fuel projectIdProp w
  /\ (aggregatedObligations out.2 = aggregatedObligations w
      \/ Forall (fun r => projectId r <> pid) (aggregatedObligations out.2))
  /\ forall allProjectsFlat (m0 : ObligationsMap) w0,
       let loop := fetch_loop backend allProjectsFlat m0 w0 in
       (exists m, loop.1 = Returns m /\ (default [] (m0 !! pid) = [] ->
                                         default [] (m !! pid) = []))
       /\ errorMessages loop.2 = errorMessages w0
       /\ aggregatedObligations loop.2 = aggregatedObligations w0.
Proof.
  intros Hf out. subst out. split; [|split].
  - rewrite !loadObligations_run. f_equal. unfold summary.
    cbn [answering_nothing get_project get_linkedProjects].
    destruct (checked (get_project backend _ _)); [|done..].
    destruct (checked (get_linkedProjects backend _ _)); [|done..].
    by rewrite fetch_all_answering_nothing.
  - rewrite loadObligations_run. unfold summary.
    destruct (checked (get_project backend _ _)); [|by left..].
    destruct (checked (get_linkedProjects backend _ _)) as [tree| |]; [|by left..].
    pose proof (fetch_all_failure_empty backend pid (S (S (length (requests w))))
                  (flattenProjects a tree) ∅ Hf eq_refl) as Hempty.
    destruct (fetch_all _ _ _ _) as [m endpoints]. simpl in Hempty.
    destruct (aggregateObligations _ _ _ _) as [rows|] eqn:Hagg; [|by left].
    right. simpl. by eapply rows_of_empty_project.
  - intros allProjectsFlat m0 w0 loop. subst loop. rewrite fetch_loop_run. simpl.
    split; [|done]. eexists. split; [done|]. by apply fetch_all_failure_empty.
Qed.

(** ** A failed root or tree fetch *)

Lemma checked_non_success {A} (answer : outcome (Response A)) res :
  answer = Resolves res ->
  response_status res <> OK ->
  checked answer = Throws (thrown_body (error_body res)).
Proof.
  intros -> Hst. unfold checked, error_body.
  destruct (json res) as [e|body]; [done|].
  by destruct (Z.eqb_spec (response_status res) OK).
Qed.

Lemma fatal_fetch_summary backend fuel projectIdProp n body endpoints :
  fatal_fetch backend projectIdProp n body endpoints ->
  summary backend fuel projectIdProp n = Failed (thrown_body body) endpoints.
Proof.
  intros [res Hget Hst|rootProject res Hroot Hget Hst]; unfold summary.
  - by rewrite (checked_non_success _ res).
  - rewrite Hroot. by rewrite (checked_non_success _ res).
Qed.

(** C7 (as stated, refuted).  The root fetch returns a non-success status,
    yet no message reaches the notification sink: [await
    rootProjectResponse.json()] on line 219 rejects with the [AbortError],
    and the [catch] block returns on it. *)
Lemma cancelled_error_body_not_reported :
  fatal_fetch backend_cancelled_error_body "r" 0 (Rejects AbortError) [root_endpoint "r"]
  /\ errorMessages (loadObligations backend_cancelled_error_body 2 "r" empty_view).2 = []
  /\ ~ exists message,
         errorMessages (loadObligations backend_cancelled_error_body 2 "r" empty_view).2
         = errorMessages empty_view ++ [message].
Proof.
  split; [|split].
  - apply (root_fetch_fails backend_cancelled_error_body "r" 0
                            (mkResponse 500 (Rejects AbortError))); done.
  - reflexivity.
  - intros [message H]. discriminate H.
Qed.

(** C7 (amended).  When the root fetch or the tree fetch returns a
    non-success status, the read of that response's body is not cancelled,
    and [String(error)] returns on the value thrown, the run sends no further
    request, sends exactly one message to the notification sink, leaves the
    row list as it was, and clears the processing flag. *)
Theorem fatal_fetch_reported_once backend fuel projectIdProp w body endpoints :
  fatal_fetch backend projectIdProp (length (requests w)) body endpoints ->
  body <> Rejects AbortError ->
  converts (thrown_body body) ->
  exists message,
    loadObligations backend fuel projectIdProp w =
    (Returns tt,
     mkView (aggregatedObligations w) false (errorMessages w ++ [message])
            (requests w ++ endpoints)).
Proof.
  intros Hfatal Hbody Hconv. rewrite loadObligations_run.
  rewrite (fatal_fetch_summary _ _ _ _ _ _ Hfatal).
  destruct body as [[|message|[text|raised]]|[text|raised]]; simpl; eauto.
  - done.
  - by destruct (Hconv raised).
  - by destruct (Hconv raised).
Qed.

(** ** Running twice *)

Lemma fetch_all_snapshot answers n n' projects (m : ObligationsMap) :
  (forall k k' id, answers k id = answers k' id) ->
  fetch_all answers n projects m = fetch_all answers n' projects m.
Proof.
  intros Hs. revert n n' m. induction projects as [|p rest IH]; intros n n' m; [done|].
  cbn [fetch_all]. cbv zeta.
  destruct (Js.truthy (Some (resolved_id p))); [|apply IH].
  by rewrite (Hs n n'), (IH (S n) (S n')).
Qed.

Lemma summary_snapshot backend fuel projectIdProp n n' :
  snapshot backend ->
  summary backend fuel projectIdProp n = summary backend fuel projectIdProp n'.
Proof.
  intros Hs. unfold summary.
  destruct (Hs n n' projectIdProp) as (-> & _ & _).
  destruct (Hs (S n) (S n') projectIdProp) as (_ & -> & _).
  destruct (checked (get_project backend n' projectIdProp)); [|done..].
  destruct (checked (get_linkedProjects backend (S n') projectIdProp)); [|done..].
  rewrite (fetch_all_snapshot _ (S (S n)) (S (S n'))); [done|].
  intros k k' id. by destruct (Hs k k' id) as (_ & _ & ->).
Qed.

(** C8.  Against a snapshot backend a second run ends as the first did and
    leaves the same rows in the same order.  The order is that of the two
    loops: the projects in flat-list order, and for each the entries of its
    map that pass the filter, in the order the map enumerates them, which is
    the order in which the fetch loop wrote them: the entries of the
    response, without one titled "__proto__", which line 261 does not store
    as an entry. *)
Theorem rerun_yields_same_rows backend fuel projectIdProp w :
  snapshot backend ->
  let first := loadObligations backend fuel projectIdProp w in
  let second := loadObligations backend fuel projectIdProp first.2 in
  (second.1 = first.1
   /\ aggregatedObligations second.2 = aggregatedObligations first.2)
  /\ (forall allProjectsFlat (m : ObligationsMap),
        aggregateObligations fuel projectIdProp allProjectsFlat m =
        mapM (row_for fuel allProjectsFlat)
             (flat_map (fun p => map (pair p)
                                     (List.filter (included projectIdProp m)
                                        (Obj.entries (default [] (m !! resolved_id p)))))
                       allProjectsFlat))
  /\ (forall pId (es : JsObject ObligationData) (m : ObligationsMap),
        Obj.well_formed es ->
        foldl (store_entry pId) (<[pId := []]> m) (Obj.entries es) !! pId
        = Some (own_entries es)).
Proof.
  intros Hs first second. subst first second. split; [|split].
  - rewrite !loadObligations_run.
    set (n := length (requests w)).
    set (s := summary backend fuel projectIdProp n).
    rewrite (summary_snapshot backend fuel projectIdProp _ n Hs). fold s.
    by destruct s.
  - intros. apply aggregateObligations_selected.
  - intros. by apply stored_in_insertion_order.
Qed.

(** * Worked instances *)

Lemma aggregated_rows_fulfilled_witness :
  aggregateObligations 2 "r" example_flat example_map = Some example_rows
  /\ forall r, In r example_rows ->
       fulfilled (status (detail r))
       /\ exists p, In p example_flat
                    /\ projectId r = resolved_id p
                    /\ In (obligationTitle r, detail r)
                          (default [] (example_map !! projectId r)).
Proof.
  assert (H : aggregateObligations 2 "r" example_flat example_map = Some example_rows)
    by (vm_compute; reflexivity).
  split; [exact H|].
  exact (aggregated_rows_fulfilled 2 "r" example_flat example_map example_rows H).
Defined.

Lemma parent_must_also_fulfill_witness :
  path_settles example_flat
  /\ aggregateObligations 2 "r" example_flat example_map = Some example_rows
  /\ ((exists path,
         In (row_of example_child
                    ("Attribution", obligation_with FULFILLED_AND_PARENT_MUST_ALSO_FULFILL)
                    path) example_rows)
      <-> root_fulfilled "r" example_map "Attribution").
Proof.
  assert (H : aggregateObligations 2 "r" example_flat example_map = Some example_rows)
    by (vm_compute; reflexivity).
  split; [reflexivity|]. split; [exact H|].
  refine (proj2 (parent_must_also_fulfill "r" example_flat example_map
                   example_child "Attribution"
                   (obligation_with FULFILLED_AND_PARENT_MUST_ALSO_FULFILL) _ _ _)
                2 example_rows H).
  - simpl. auto.
  - vm_compute. auto.
  - reflexivity.
Defined.

Lemma root_satisfies_own_parent_check_witness :
  aggregateObligations 2 "r" example_flat example_root_map = Some example_root_rows
  /\ parentFulfillmentOk "r" example_root_map "Attribution"
       (obligation_with FULFILLED_AND_PARENT_MUST_ALSO_FULFILL) = true
  /\ exists path,
       In (row_of example_root
                  ("Attribution", obligation_with FULFILLED_AND_PARENT_MUST_ALSO_FULFILL)
                  path) example_root_rows.
Proof.
  assert (H : aggregateObligations 2 "r" example_flat example_root_map
              = Some example_root_rows) by (vm_compute; reflexivity).
  split; [exact H|].
  assert (T : In example_root example_flat
              /\ resolved_id example_root = "r"
              /\ Obj.get (default [] (example_root_map !! "r")) "Attribution"
                 = Some (obligation_with FULFILLED_AND_PARENT_MUST_ALSO_FULFILL)
              /\ status (obligation_with FULFILLED_AND_PARENT_MUST_ALSO_FULFILL)
                 = Some FULFILLED_AND_PARENT_MUST_ALSO_FULFILL).
  { split; [simpl; auto|]. split; [reflexivity|]. split; [vm_compute|]; reflexivity. }
  destruct T as (T1 & T2 & T3 & T4).
  destruct (root_satisfies_own_parent_check "r" example_flat example_root_map
              example_root "Attribution"
              (obligation_with FULFILLED_AND_PARENT_MUST_ALSO_FULFILL) T1 T2 T3 T4)
    as (Hok & _ & Hrow).
  split; [exact Hok|]. exact (Hrow 2 example_root_rows H).
Defined.

Lemma parent_must_row_never_built_witness :
  root_fulfilled "r" example_map "Attribution"
  /\ ~ path_settles example_dangling_flat
  /\ forall fuel, aggregateObligations fuel "r" example_dangling_flat example_map = None.
Proof.
  assert (R : root_fulfilled "r" example_map "Attribution").
  { exists (obligation_with ACKNOWLEDGED_OR_FULFILLED).
    split; [vm_compute; reflexivity|left; reflexivity]. }
  assert (N : ~ path_settles example_dangling_flat)
    by (vm_compute; intros H; discriminate H).
  split; [exact R|]. split; [exact N|].
  apply (parent_must_row_never_built "r" example_dangling_flat example_map
           example_child "Attribution"
           (obligation_with FULFILLED_AND_PARENT_MUST_ALSO_FULFILL)).
  - simpl. auto.
  - vm_compute. auto.
  - reflexivity.
  - exact R.
  - vm_compute. intros H. discriminate H.
  - exact N.
Defined.

Lemma root_row_never_built_witness :
  ~ path_settles [example_dangling_root]
  /\ parentFulfillmentOk "r" example_root_map "Attribution"
       (obligation_with FULFILLED_AND_PARENT_MUST_ALSO_FULFILL) = true
  /\ forall fuel,
       aggregateObligations fuel "r" [example_dangling_root] example_root_map = None.
Proof.
  assert (N : ~ path_settles [example_dangling_root])
    by (vm_compute; intros H; discriminate H).
  split; [exact N|].
  apply (root_row_never_built "r" [example_dangling_root] example_root_map
           example_dangling_root "Attribution"
           (obligation_with FULFILLED_AND_PARENT_MUST_ALSO_FULFILL)).
  - simpl. auto.
  - reflexivity.
  - vm_compute. reflexivity.
  - reflexivity.
  - intros H. discriminate H.
  - exact N.
Defined.

Lemma one_row_per_pair_distinct_projects_witness :
  aggregateObligations 2 "r" example_flat example_map = Some example_rows
  /\ one_row_per_pair "r" example_map example_flat example_rows.
Proof.
  assert (H : aggregateObligations 2 "r" example_flat example_map = Some example_rows)
    by (vm_compute; reflexivity).
  split; [exact H|].
  refine (proj2 (one_row_per_pair_distinct_projects "r" example_flat example_map _ _)
                2 example_rows H).
  - vm_compute. apply NoDup_cons. split; [|apply NoDup_singleton].
    intros Hin. apply list_elem_of_singleton in Hin. discriminate Hin.
  - repeat apply Forall_cons_2; [| |apply Forall_nil_2].
    + vm_compute. apply NoDup_cons. split; [|apply NoDup_singleton].
      intros Hin. apply list_elem_of_singleton in Hin. discriminate Hin.
    + vm_compute. apply NoDup_singleton.
Defined.

Lemma failed_project_contributes_nothing_witness :
  obligations_fetch_fails backend_child_refused "c"
  /\ let out := loadObligations backend_child_refused 2 "r" empty_view in
     out = loadObligations (answering_nothing backend_child_refused "c") 2 "r" empty_view
     /\ (aggregatedObligations out.2 = aggregatedObligations empty_view
         \/ Forall (fun r => projectId r <> "c") (aggregatedObligations out.2))
     /\ forall allProjectsFlat (m0 : ObligationsMap) w0,
          let loop := fetch_loop backend_child_refused allProjectsFlat m0 w0 in
          (exists m, loop.1 = Returns m /\ (default [] (m0 !! "c") = [] ->
                                            default [] (m !! "c") = []))
          /\ errorMessages loop.2 = errorMessages w0
          /\ aggregatedObligations loop.2 = aggregatedObligations w0.
Proof.
  assert (H : obligations_fetch_fails backend_child_refused "c").
  { intros n. eexists. split; [reflexivity|]. left. discriminate. }
  split; [exact H|].
  exact (failed_project_contributes_nothing backend_child_refused 2 "r" "c" empty_view H).
Defined.

Lemma fatal_fetch_reported_once_witness :
  fatal_fetch backend_root_missing "r" (length (requests empty_view))
              (Resolves (Rendered "[object Object]")) [root_endpoint "r"]
  /\ converts (thrown_body (Resolves (Rendered "[object Object]")))
  /\ exists message,
       loadObligations backend_root_missing 2 "r" empty_view =
       (Returns tt,
        mkView (aggregatedObligations empty_view) false
               (errorMessages empty_view ++ [message])
               (requests empty_view ++ [root_endpoint "r"])).
Proof.
  assert (H : fatal_fetch backend_root_missing "r" (length (requests empty_view))
                          (Resolves (Rendered "[object Object]")) [root_endpoint "r"]).
  { apply (root_fetch_fails backend_root_missing "r" 0
             (mkResponse 404 (Resolves (mkParsed example_root
                                                 (Rendered "[object Object]"))))).
    - reflexivity.
    - discriminate. }
  assert (C : converts (thrown_body (Resolves (Rendered "[object Object]")))).
  { intros raised. discriminate. }
  split; [exact H|]. split; [exact C|].
  apply (fatal_fetch_reported_once backend_root_missing 2 "r" empty_view
           (Resolves (Rendered "[object Object]")) [root_endpoint "r"] H); [|exact C].
  discriminate.
Defined.

Lemma rerun_yields_same_rows_witness :
  snapshot backend_steady
  /\ let first := loadObligations backend_steady 2 "r" empty_view in
     let second := loadObligations backend_steady 2 "r" first.2 in
     second.1 = first.1
     /\ aggregatedObligations second.2 = aggregatedObligations first.2.
Proof.
  assert (H : snapshot backend_steady).
  { intros n n' id. repeat split; reflexivity. }
  split; [exact H|].
  exact (proj1 (rerun_yields_same_rows backend_steady 2 "r" empty_view H)).
Defined.

(** * Further properties *)

(** ** Identifiers *)

Lemma split_slash_app a b :
  exists pre, pre <> [] /\
    Js.split_slash (a +:+ String "/" b) = pre ++ Js.split_slash b.
Proof.
  induction a as [|c a (pre & Hpre & IH)].
  - by exists [""].
  - change (String c a +:+ String "/" b) with (String c (a +:+ String "/" b)).
    cbn [Js.split_slash]. rewrite IH.
    destruct (Ascii.eqb c "/").
    + by exists ("" :: pre).
    + destruct pre as [|seg pre]; [done|]. by exists (String c seg :: pre).
Qed.

Lemma last_segment_after_slash a b :
  Js.last_segment (a +:+ String "/" b) = Js.last_segment b.
Proof.
  destruct (last_segment_is_Some b) as [x Hx]. rewrite Hx.
  unfold Js.last_segment in *.
  destruct (split_slash_app a b) as (pre & _ & ->).
  by rewrite last_app, Hx.
Qed.

Lemma split_slash_no_slash s : no_slash s -> Js.split_slash s = [s].
Proof.
  induction s as [|c s IH]; [done|]. intros [Hc Hs]. cbn [Js.split_slash].
  destruct (Ascii.eqb_spec c "/"); [done|]. by rewrite IH.
Qed.

(** X1.  The identifier a project resolves to: its [id] when that is not
    empty; else the text after the last slash of its self link; and the
    empty string when it has neither, or when the link ends in a slash. *)
Theorem resolved_id_cases (p : Project) :
  (Js.truthy (project_id p) = true -> project_id p = Some (resolved_id p))
  /\ (Js.truthy (project_id p) = false ->
      (forall base tail, project_self_href p = Some (base +:+ String "/" tail) ->
                         no_slash tail -> resolved_id p = tail)
      /\ (forall href, project_self_href p = Some href -> no_slash href ->
                       resolved_id p = href)
      /\ (project_self_href p = None -> resolved_id p = "")).
Proof.
  unfold resolved_id, own_or_link_id, Js.js_or. split.
  - intros Ht. rewrite Ht. destruct (project_id p) as [s|]; [|done].
    by rewrite or_empty_Some.
  - intros Ht. rewrite Ht. split; [|split].
    + intros base tail -> Htail. cbn [mbind option_bind].
      rewrite last_segment_after_slash. unfold Js.last_segment.
      rewrite split_slash_no_slash by done. cbn. by rewrite or_empty_Some.
    + intros href -> Hno. cbn [mbind option_bind]. unfold Js.last_segment.
      rewrite split_slash_no_slash by done. cbn. by rewrite or_empty_Some.
    + by intros ->.
Qed.

(** ** The text of the cells *)

Lemma join_cons_char c seg segs :
  Js.join " " (String c seg :: segs) = String c (Js.join " " (seg :: segs)).
Proof. by destruct segs. Qed.

Lemma join_two sep x y rest :
  Js.join sep (x :: y :: rest) = x +:+ sep +:+ Js.join sep (y :: rest).
Proof. reflexivity. Qed.

Lemma split_on_not_nil sep s : Text.split_on sep s <> [].
Proof.
  destruct s as [|c rest]; simpl; [done|].
  destruct (Ascii.eqb c sep); [done|].
  by destruct (Text.split_on sep rest).
Qed.

Lemma capitalize_pieces s seg segs :
  Text.split_on "_" s = seg :: segs ->
  Js.join " " (Text.toLowerCase seg :: map capitalize_piece segs) = capitalize_from false s
  /\ Js.join " " (capitalize_piece seg :: map capitalize_piece segs) = capitalize_from true s.
Proof.
  revert seg segs. induction s as [|c s IH]; intros seg segs.
  - intros [= <- <-]. done.
  - cbn [Text.split_on capitalize_from].
    pose proof (split_on_not_nil "_" s) as Hne.
    destruct (Text.split_on "_" s) as [|seg' segs'] eqn:E; [done|].
    destruct (IH seg' segs' eq_refl) as [IHf IHt].
    destruct (Ascii.eqb c "_").
    + intros [= <- <-]. cbn [map].
      change (capitalize_piece "") with "". change (Text.toLowerCase "") with "".
      rewrite join_two, IHt. done.
    + intros [= <- <-]. split.
      * change (Text.toLowerCase (String c seg'))
          with (String (Text.lower_char c) (Text.toLowerCase seg')).
        by rewrite join_cons_char, IHf.
      * change (capitalize_piece (String c seg'))
          with (String (Text.upper_char c) (Text.toLowerCase seg')).
        by rewrite join_cons_char, IHf.
Qed.

Lemma Capitalize_one_pass text : Capitalize text = capitalize_from true text.
Proof.
  unfold Capitalize. fold capitalize_piece.
  pose proof (split_on_not_nil "_" text) as Hne.
  destruct (Text.split_on "_" text) as [|seg segs] eqn:E; [done|].
  cbn [map]. by destruct (capitalize_pieces text seg segs E) as [_ ->].
Qed.

Lemma case_char_facts c :
  c <> "_"%char ->
  Text.upper_char c <> "_"%char /\ Text.lower_char c <> "_"%char
  /\ Text.upper_char (Text.lower_char c) = Text.upper_char c
  /\ Text.lower_char (Text.lower_char c) = Text.lower_char c
  /\ Text.upper_char (Text.upper_char c) = Text.upper_char c
  /\ Text.lower_char (Text.upper_char c) = Text.lower_char c.
Proof.
  destruct c as [[] [] [] [] [] [] [] []]; intros H;
    repeat split; solve [reflexivity | discriminate | by destruct H].
Qed.

(** X2.  On ASCII text [Capitalize] works character by character: an
    underscore becomes a space, a character at the start or right after an
    underscore is upper-cased, every other one lower-cased.  So the result is
    as long as the text and has no underscore. *)
Theorem Capitalize_characters (text : string) :
  Text.ascii_text text ->
  Capitalize text = capitalize_from true text
  /\ String.length (Capitalize text) = String.length text
  /\ forall c, In c (list_ascii_of_string (Capitalize text)) -> c <> "_"%char.
Proof.
  intros _. rewrite Capitalize_one_pass. split; [done|].
  assert (H : forall start,
             String.length (capitalize_from start text) = String.length text
             /\ forall c, In c (list_ascii_of_string (capitalize_from start text)) ->
                          c <> "_"%char); [|apply H].
  induction text as [|c text IH]; intros start; [by split|].
  cbn [capitalize_from]. destruct (Ascii.eqb_spec c "_") as [->|Hc].
  - destruct (IH true) as [Hlen Hno]. split; [simpl; by rewrite Hlen|].
    intros c' [<-|Hin]; [done|by apply Hno].
  - destruct (IH false) as [Hlen Hno]. split; [simpl; by rewrite Hlen|].
    destruct (case_char_facts c Hc) as (Hu & Hl & _).
    intros c' [<-|Hin]; [by destruct start|by apply Hno].
Qed.

Lemma capitalize_from_case start text :
  capitalize_from start (Text.toLowerCase text) = capitalize_from start text
  /\ capitalize_from start (Text.toUpperCase text) = capitalize_from start text.
Proof.
  revert start. induction text as [|c text IH]; intros start; [done|].
  cbn [Text.toLowerCase Text.toUpperCase Text.map_chars capitalize_from].
  fold (Text.toLowerCase text). fold (Text.toUpperCase text).
  destruct (Ascii.eqb_spec c "_") as [->|Hc].
  - cbn. by rewrite (proj1 (IH true)), (proj2 (IH true)).
  - destruct (case_char_facts c Hc) as (Hu & Hl & Hul & Hll & Huu & Hlu).
    destruct (Ascii.eqb_spec (Text.lower_char c) "_"); [done|].
    destruct (Ascii.eqb_spec (Text.upper_char c) "_"); [done|].
    rewrite (proj1 (IH false)), (proj2 (IH false)).
    destruct start; by rewrite ?Hul, ?Hll, ?Huu, ?Hlu.
Qed.

(** X3.  On ASCII text [Capitalize] does not depend on the case of the
    text it is given. *)
Theorem Capitalize_ignores_case (text : string) :
  Text.ascii_text text ->
  Capitalize (Text.toLowerCase text) = Capitalize text
  /\ Capitalize (Text.toUpperCase text) = Capitalize text.
Proof.
  intros _. rewrite !Capitalize_one_pass. apply capitalize_from_case.
Qed.

(** X4.  The status cell of every row of an output shows one of two texts. *)
Theorem status_cell_texts fuel projectIdProp allProjectsFlat (m : ObligationsMap) rows :
  aggregateObligations fuel projectIdProp allProjectsFlat m = Some rows ->
  forall r, In r rows ->
    status_cell r = "Acknowledged Or Fulfilled"
    \/ status_cell r = "Fulfilled And Parent Must Also Fulfill".
Proof.
  intros Hagg r Hr.
  destruct (rows_from_selected _ _ _ _ _ _ Hagg Hr) as (p & [title d] & path & Hsel & _ & ->).
  apply selected_In in Hsel as (_ & _ & Hinc).
  unfold included in Hinc. apply andb_true_iff in Hinc as [Hst _].
  apply status_fulfilled_iff in Hst. simpl in Hst.
  unfold status_cell, row_of. cbn [detail snd].
  destruct Hst as [Hs|Hs]; rewrite Hs; [left|right]; vm_compute; reflexivity.
Qed.

(** ** The ancestry path at its edges *)

(** [new Map(entries)] keeps, for an identifier, the last project with it. *)
Lemma projectMap_of_lookup allProjects key :
  projectMap_of allProjects !! key =
  last (List.filter (fun p => String.eqb (resolved_id p) key) allProjects).
Proof.
  induction allProjects as [|q rest IH] using rev_ind; [done|].
  rewrite projectMap_of_snoc, List.filter_app. cbn [List.filter].
  destruct (String.eqb_spec (resolved_id q) key) as [->|Hne].
  - by rewrite lookup_insert_eq, last_snoc.
  - by rewrite lookup_insert_ne, app_nil_r.
Qed.

Lemma truthy_Some key : Js.truthy (Some key) = true <-> key <> "".
Proof.
  simpl. destruct (String.eqb_spec key ""); split; intros; done.
Qed.

(** X5.  When every reference of the list carries its [project] and none
    names the target, the path of a target with a non-empty identifier is
    the name of the project that has the identifier; of several with the
    same identifier, the last of the list. *)
Theorem buildProjectPath_unreferenced fuel projectId allProjects q :
  links_defined allProjects ->
  (forall p, In p allProjects -> links_to (Some projectId) p = false) ->
  projectId <> "" ->
  last (List.filter (fun p => String.eqb (resolved_id p) projectId) allProjects) = Some q ->
  buildProjectPath (S (S fuel)) projectId allProjects = Some (project_name q).
Proof.
  intros Hdef _ Hne Hq.
  rewrite buildProjectPath_settles by (by apply links_defined_settles).
  unfold first_lookup. rewrite (proj2 (truthy_Some projectId) Hne).
  by rewrite projectMap_of_lookup, Hq.
Qed.

(** X6.  For the empty identifier, and for an identifier no project of the
    list resolves to, the path is the empty string; one test of the loop
    condition is enough. *)
Theorem buildProjectPath_unknown fuel projectId allProjects :
  projectId = "" \/ (forall p, In p allProjects -> resolved_id p <> projectId) ->
  buildProjectPath (S fuel) projectId allProjects = Some "".
Proof.
  intros H. unfold buildProjectPath. cbn [path_loop].
  destruct (Js.truthy (Some projectId)) eqn:Ht; [|done].
  destruct H as [->|Hnot]; [done|]. cbn [mbind option_bind].
  rewrite projectMap_of_lookup.
  destruct (last _) as [q|] eqn:Hq; [|done].
  apply last_Some in Hq as [l' Hq].
  assert (Hin : In q (List.filter (fun p => String.eqb (resolved_id p) projectId)
                                  allProjects)).
  { rewrite Hq. apply in_app_iff. right. by left. }
  apply List.filter_In in Hin as [Hin Heq]. apply String.eqb_eq in Heq.
  by destruct (Hnot q Hin).
Qed.

Lemma find_parent_first_dangling pre p0 post :
  links_defined pre ->
  links_to None p0 = true ->
  find_parent (pre ++ p0 :: post) None = own_or_link_id p0.
Proof.
  intros Hpre Hp0. induction Hpre as [|p rest Hp _ IH]; simpl.
  - by rewrite Hp0.
  - by rewrite links_to_cleared.
Qed.

(** A reference without [project], in a project with an identifier that no
    such project precedes, keeps the parent search from settling. *)
Lemma dangling_reference_unsettles pre p0 post lps :
  links_defined pre ->
  linkedProjects p0 = Some lps ->
  In (mkLinkedProject None) lps ->
  Js.truthy (own_or_link_id p0) = true ->
  ~ path_settles (pre ++ p0 :: post).
Proof.
  intros Hpre Hlps Hlp Hid. unfold path_settles.
  rewrite find_parent_first_dangling; [by rewrite Hid|done|].
  unfold links_to. rewrite Hlps. apply existsb_exists.
  exists (mkLinkedProject None). by split.
Qed.

(** X7.  The loop never ends when some project of the list with an
    identifier has a reference without [project], the projects before it
    have none, and the target is in the list: at no amount of fuel does
    [buildProjectPath] return. *)
Theorem buildProjectPath_never_returns fuel projectId pre p0 post lps :
  links_defined pre ->
  linkedProjects p0 = Some lps ->
  In (mkLinkedProject None) lps ->
  Js.truthy (own_or_link_id p0) = true ->
  projectId <> "" ->
  (exists q, In q (pre ++ p0 :: post) /\ resolved_id q = projectId) ->
  buildProjectPath fuel projectId (pre ++ p0 :: post) = None.
Proof.
  intros Hpre Hlps Hlp Hid Hne (q & Hq & Hqid).
  assert (Hp0 : links_to None p0 = true).
  { unfold links_to. rewrite Hlps. apply existsb_exists.
    exists (mkLinkedProject None). by split. }
  apply buildProjectPath_diverges.
  - unfold path_settles. rewrite find_parent_first_dangling by done. by rewrite Hid.
  - unfold first_lookup. rewrite (proj2 (truthy_Some projectId) Hne).
    rewrite <- Hqid. by apply projectMap_of_is_Some.
Qed.

(** ** The fetch loop, request by request *)

Lemma fetch_all_requests answers n projects (m : ObligationsMap) :
  (fetch_all answers n projects m).2 = map obligations_endpoint (fetched_ids projects).
Proof.
  revert n m. induction projects as [|p rest IH]; intros n m; [done|].
  cbn [fetch_all]. cbv zeta. unfold fetched_ids. cbn [map List.filter].
  destruct (Js.truthy (Some (resolved_id p))); [|apply IH].
  specialize (IH (S n) (fetched (answers n (resolved_id p)) (resolved_id p) m)).
  destruct (fetch_all _ _ _ _) as [m' endpoints]. simpl in *. by rewrite IH.
Qed.

Lemma fetched_lookup answer pId (m : ObligationsMap) :
  fetched answer pId m !! pId =
  Some (foldl set_entry [] (own_entries (response_entries answer))).
Proof.
  unfold fetched, response_entries.
  assert (Hm : (<[pId := []]> m : ObligationsMap) !! pId = Some [])
    by apply lookup_insert_eq.
  destruct answer as [e|res]; [done|].
  destruct (response_status res =? OK)%Z; [|done].
  destruct (json res) as [e|body]; [done|].
  destruct (obligations (as_typed body)) as [obs|]; [|done].
  by apply store_entries_lookup.
Qed.

Lemma fetch_all_untouched answers n projects (m : ObligationsMap) k :
  ~ In k (fetched_ids projects) ->
  (fetch_all answers n projects m).1 !! k = m !! k.
Proof.
  revert n m. induction projects as [|p rest IH]; intros n m Hk; [done|].
  cbn [fetch_all]. cbv zeta. unfold fetched_ids in Hk. cbn [map List.filter] in Hk.
  destruct (Js.truthy (Some (resolved_id p))); [|by apply IH].
  specialize (IH (S n) (fetched (answers n (resolved_id p)) (resolved_id p) m)).
  destruct (fetch_all _ _ _ _) as [m' endpoints]. simpl in *.
  rewrite IH by tauto. apply fetched_other. intros ->. tauto.
Qed.

Lemma fetch_all_domain answers n projects (m : ObligationsMap) k :
  is_Some ((fetch_all answers n projects m).1 !! k) <->
  is_Some (m !! k) \/ In k (fetched_ids projects).
Proof.
  revert n m. induction projects as [|p rest IH]; intros n m.
  - simpl. tauto.
  - cbn [fetch_all]. cbv zeta. unfold fetched_ids. cbn [map List.filter].
    destruct (Js.truthy (Some (resolved_id p))); [|apply IH].
    specialize (IH (S n) (fetched (answers n (resolved_id p)) (resolved_id p) m)).
    destruct (fetch_all _ _ _ _) as [m' endpoints]. simpl in *.
    rewrite IH. fold (fetched_ids rest).
    destruct (decide (k = resolved_id p)) as [->|Hne].
    + rewrite fetched_lookup. split; [tauto|]. intros _. left. eauto.
    + rewrite fetched_other by done. split; [tauto|].
      intros [H|[H|H]]; [tauto|by destruct Hne|tauto].
Qed.

(** X8.  The fetch loop never throws.  It sends one request for every
    project with a non-empty identifier, in flat-list order, and none for
    the others; it leaves the rows, the processing flag and the messages as
    they were; and the map it returns has an object exactly for the
    identifiers it had one for and those it sent a request for. *)
Theorem fetch_loop_requests backend allProjectsFlat (m : ObligationsMap) w :
  exists M,
    fetch_loop backend allProjectsFlat m w =
    (Returns M, sent w (map obligations_endpoint (fetched_ids allProjectsFlat)))
    /\ forall k, is_Some (M !! k) <-> is_Some (m !! k) \/ In k (fetched_ids allProjectsFlat).
Proof.
  rewrite fetch_loop_run. cbv zeta. rewrite fetch_all_requests.
  eexists. split; [done|]. intros k. apply fetch_all_domain.
Qed.

Lemma fetch_all_stored answers n projects (m : ObligationsMap) k :
  (forall i j id, answers i id = answers j id) ->
  In k (fetched_ids projects) ->
  (fetch_all answers n projects m).1 !! k =
  Some (foldl set_entry [] (own_entries (response_entries (answers 0 k)))).
Proof.
  intros Hs. revert n m. induction projects as [|p rest IH]; intros n m Hk; [done|].
  cbn [fetch_all]. cbv zeta. unfold fetched_ids in Hk. cbn [map List.filter] in Hk.
  fold (fetched_ids rest) in Hk.
  destruct (Js.truthy (Some (resolved_id p))); [|by apply IH].
  pose proof (IH (S n) (fetched (answers n (resolved_id p)) (resolved_id p) m)) as IH'.
  pose proof (fetch_all_untouched answers (S n) rest
                (fetched (answers n (resolved_id p)) (resolved_id p) m) k) as Hun.
  destruct (fetch_all _ _ _ _) as [m' endpoints]. simpl in *.
  destruct (in_dec string_dec k (fetched_ids rest)) as [Hin|Hnot]; [by apply IH'|].
  destruct Hk as [<-|Hk]; [|done].
  rewrite Hun by done. by rewrite fetched_lookup, (Hs n 0).
Qed.

(** X9.  Against answers that do not change, the object the loop leaves for
    a project it fetched holds the obligations of that project's answer,
    title by title and in the order of the response, except one titled
    "__proto__", which is not stored; it is empty when the answer is a
    failure or has no obligations.  This holds also for a project that
    occurs several times in the list. *)
Theorem fetch_loop_stores_answers backend allProjectsFlat (m M : ObligationsMap) w w' k :
  (forall i j id, get_licenseObligations backend i id = get_licenseObligations backend j id) ->
  fetch_loop backend allProjectsFlat m w = (Returns M, w') ->
  In k (fetched_ids allProjectsFlat) ->
  Obj.well_formed (response_entries (get_licenseObligations backend 0 k)) ->
  M !! k = Some (own_entries (response_entries (get_licenseObligations backend 0 k))).
Proof.
  intros Hs Hrun Hk Hwf. rewrite fetch_loop_run in Hrun. cbv zeta in Hrun.
  injection Hrun as <- _.
  rewrite (fetch_all_stored _ _ _ _ k Hs Hk).
  rewrite (set_entries_in_order _ []); [done|]. by apply own_entries_well_formed.
Qed.

Lemma replace_keys {V} (o : JsObject V) key v : (Obj.replace o key v).*1 = o.*1.
Proof.
  induction o as [|[k w] rest IH]; [done|]. cbn [Obj.replace].
  destruct (String.eqb k key); [done|]. rewrite !fmap_cons. by rewrite IH.
Qed.

Lemma get_None_fresh {V} (o : JsObject V) key : Obj.get o key = None -> key ∉ o.*1.
Proof.
  induction o as [|[k w] rest IH]; [intros _; apply not_elem_of_nil|].
  cbn [Obj.get]. destruct (String.eqb_spec k key) as [->|Hne]; [done|].
  intros H. rewrite fmap_cons. apply not_elem_of_cons. split; [done|by apply IH].
Qed.

Lemma define_index_keys {V} (o : JsObject V) key n v x :
  x ∈ (Obj.define_index o key n v).*1 <-> x = key \/ x ∈ o.*1.
Proof.
  induction o as [|[k w] rest IH].
  - cbn. rewrite list_elem_of_singleton. split; [tauto|].
    intros [H|H]; [done|]. by apply elem_of_nil in H.
  - cbn [Obj.define_index].
    destruct (Obj.array_index k) as [i|]; [destruct (n <? i)%N|].
    + rewrite fmap_cons. by rewrite elem_of_cons.
    + rewrite !fmap_cons, !elem_of_cons, IH. cbn. tauto.
    + rewrite fmap_cons. by rewrite elem_of_cons.
Qed.

Lemma define_index_NoDup {V} (o : JsObject V) key n v :
  key ∉ o.*1 -> NoDup o.*1 -> NoDup (Obj.define_index o key n v).*1.
Proof.
  induction o as [|[k w] rest IH]; intros Hfresh Hnd.
  - cbn. apply NoDup_singleton.
  - rewrite fmap_cons in Hfresh, Hnd. cbn [fst] in *.
    apply not_elem_of_cons in Hfresh as [Hne Hfresh].
    assert (Hgoal : NoDup (key :: ((k, w) :: rest).*1)).
    { apply NoDup_cons. split; [|done]. rewrite fmap_cons.
      apply not_elem_of_cons. by split. }
    cbn [Obj.define_index].
    destruct (Obj.array_index k) as [i|]; [destruct (n <? i)%N|]; [done| |done].
    apply NoDup_cons in Hnd as [Hk Hnd].
    rewrite fmap_cons. cbn [fst]. apply NoDup_cons. split; [|by apply IH].
    rewrite define_index_keys. intros [->|H]; [done|by apply Hk].
Qed.

(** An assignment keeps the titles of an object distinct. *)
Lemma set_NoDup {V} (o : JsObject V) key v :
  NoDup o.*1 -> NoDup (Obj.set o key v).*1.
Proof.
  intros Hnd. unfold Obj.set, Obj.has.
  destruct (Obj.get o key) eqn:E; [by rewrite replace_keys|].
  apply get_None_fresh in E. unfold Obj.define.
  destruct (Obj.array_index key); [by apply define_index_NoDup|].
  rewrite fmap_app. apply NoDup_app. split; [done|]. split; [|apply NoDup_singleton].
  intros x Hx Hx'. apply list_elem_of_singleton in Hx'. by subst.
Qed.

Lemma store_entries_distinct pId (es : JsObject ObligationData) (m : ObligationsMap) :
  titles_distinct m -> titles_distinct (foldl (store_entry pId) m es).
Proof.
  revert m. induction es as [|[title d] rest IH]; intros m Hm; [done|].
  cbn [foldl]. apply IH. intros k o. unfold store_entry.
  destruct (String.eqb title "__proto__"); [apply Hm|].
  destruct (decide (k = pId)) as [->|Hne].
  - rewrite lookup_insert_eq. intros [= <-]. apply set_NoDup.
    destruct (m !! pId) as [o'|] eqn:E; [by eapply Hm|apply NoDup_nil_2].
  - rewrite lookup_insert_ne by done. apply Hm.
Qed.

Lemma fetched_distinct answer pId (m : ObligationsMap) :
  titles_distinct m -> titles_distinct (fetched answer pId m).
Proof.
  intros Hm.
  assert (Hreset : titles_distinct (<[pId := []]> m)).
  { intros k o. destruct (decide (k = pId)) as [->|Hne].
    - rewrite lookup_insert_eq. intros [= <-]. apply NoDup_nil_2.
    - rewrite lookup_insert_ne by done. apply Hm. }
  unfold fetched. destruct answer as [e|res]; [done|].
  destruct (response_status res =? OK)%Z; [|done].
  destruct (json res) as [e|body]; [done|].
  destruct (obligations (as_typed body)); [|done].
  by apply store_entries_distinct.
Qed.

Lemma fetch_all_distinct answers n projects (m : ObligationsMap) :
  titles_distinct m -> titles_distinct (fetch_all answers n projects m).1.
Proof.
  revert n m. induction projects as [|p rest IH]; intros n m Hm; [done|].
  cbn [fetch_all]. cbv zeta.
  destruct (Js.truthy (Some (resolved_id p))); [|by apply IH].
  specialize (IH (S n) (fetched (answers n (resolved_id p)) (resolved_id p) m)).
  destruct (fetch_all _ _ _ _) as [m' endpoints]. simpl in *.
  by apply IH, fetched_distinct.
Qed.

(** X10.  Whatever the responses hold, no object of the map the fetch loop
    returns has a title twice, provided none had before; so each title of a
    project yields at most one entry for the filter. *)
Theorem fetch_loop_titles_distinct backend allProjectsFlat (m M : ObligationsMap) w w' :
  titles_distinct m ->
  fetch_loop backend allProjectsFlat m w = (Returns M, w') ->
  titles_distinct M.
Proof.
  intros Hm Hrun. rewrite fetch_loop_run in Hrun. cbv zeta in Hrun.
  injection Hrun as <- _. by apply fetch_all_distinct.
Qed.

(** ** A run, end to end *)

Lemma fetch_throws_summary backend fuel projectIdProp n e endpoints :
  fetch_throws backend projectIdProp n e endpoints ->
  summary backend fuel projectIdProp n = Failed e endpoints.
Proof.
  intros [e' Hget|res e' Hget Hjson|rootProject e' Hroot Hget
          |rootProject res e' Hroot Hget Hjson]; unfold summary.
  - by rewrite Hget.
  - rewrite Hget. unfold checked. by rewrite Hjson.
  - rewrite Hroot, Hget. done.
  - rewrite Hroot, Hget. unfold checked. by rewrite Hjson.
Qed.

(** X11.  A run cancelled while the root or the tree is fetched (the
    request, or the read of its body, rejects with an [AbortError]) sends no
    further request, writes no rows, sends no message and clears the
    processing flag. *)
Theorem cancelled_tree_fetch_discarded backend fuel projectIdProp w endpoints :
  fetch_throws backend projectIdProp (length (requests w)) AbortError endpoints ->
  loadObligations backend fuel projectIdProp w =
  (Returns tt,
   mkView (aggregatedObligations w) false (errorMessages w) (requests w ++ endpoints)).
Proof.
  intros H. rewrite loadObligations_run, (fetch_throws_summary _ _ _ _ _ _ H).
  simpl. by rewrite app_nil_r.
Qed.

(** X12.  When the root or the tree request is rejected with an [Error]
    (a network failure), or the read of the body of its response is (it does
    not parse), the run sends no further request, sends that error's message and nothing
    else to the notification sink, and leaves the rows as they were. *)
Theorem failed_tree_fetch_reports_message backend fuel projectIdProp w message endpoints :
  fetch_throws backend projectIdProp (length (requests w)) (ErrorInstance message) endpoints ->
  loadObligations backend fuel projectIdProp w =
  (Returns tt,
   mkView (aggregatedObligations w) false (errorMessages w ++ [message])
          (requests w ++ endpoints)).
Proof.
  intros H. by rewrite loadObligations_run, (fetch_throws_summary _ _ _ _ _ _ H).
Qed.

(** X13.  Once the root and the tree are fetched, nothing an obligation
    fetch does can stop the run or reach the notification sink: the run sends
    the requests of the fetch loop and writes the aggregation of the map that
    loop returns over the flattened tree, in place of the rows it found (or
    it never ends, when the aggregation does not). *)
Theorem fetched_tree_is_aggregated backend fuel projectIdProp w rootProject linkedProjectsData :
  tree_fetched backend projectIdProp (length (requests w)) rootProject linkedProjectsData ->
  let allProjectsFlat := flattenProjects rootProject linkedProjectsData in
  let sent2 := [root_endpoint projectIdProp; tree_endpoint projectIdProp] in
  let started := mkView (aggregatedObligations w) true (errorMessages w) (requests w ++ sent2) in
  exists M,
    (fetch_loop backend allProjectsFlat ∅ started).1 = Returns M
    /\ loadObligations backend fuel projectIdProp w =
       match aggregateObligations fuel projectIdProp allProjectsFlat M with
       | Some rows =>
           (Returns tt,
            mkView rows false (errorMessages w)
                   (requests w ++ sent2 ++ map obligations_endpoint (fetched_ids allProjectsFlat)))
       | None =>
           (Diverges,
            mkView (aggregatedObligations w) true (errorMessages w)
                   (requests w ++ sent2 ++ map obligations_endpoint (fetched_ids allProjectsFlat)))
       end.
Proof.
  intros [Hroot Htree] allProjectsFlat sent2 started.
  rewrite fetch_loop_run, loadObligations_run. unfold summary.
  rewrite Hroot, Htree. cbv zeta. fold allProjectsFlat.
  subst started sent2. cbn [requests]. rewrite length_app. cbn [length].
  replace (length (requests w) + 2) with (S (S (length (requests w)))) by lia.
  pose proof (fetch_all_requests (get_licenseObligations backend)
                (S (S (length (requests w)))) allProjectsFlat ∅) as Hreq.
  destruct (fetch_all _ _ _ _) as [M endpoints]. simpl in Hreq. subst endpoints.
  exists M. split; [done|].
  by destruct (aggregateObligations fuel projectIdProp allProjectsFlat M).
Qed.

Lemma summary_requests backend fuel projectIdProp n :
  exists rest,
    match summary backend fuel projectIdProp n with
    | Failed _ endpoints | Completed _ endpoints | Unfinished endpoints =>
        endpoints = root_endpoint projectIdProp :: rest
    end.
Proof.
  unfold summary.
  destruct (checked (get_project backend n projectIdProp)); [|by eexists..].
  destruct (checked (get_linkedProjects backend (S n) projectIdProp)); [|by eexists..].
  destruct (fetch_all _ _ _ _) as [m endpoints].
  destruct (aggregateObligations _ _ _ _); by eexists.
Qed.

Lemma checked_throws {A} (answer : outcome (Response A)) e :
  checked answer = Throws e ->
  answer = Rejects e
  \/ exists res, answer = Resolves res
                 /\ (json res = Rejects e
                     \/ response_status res <> OK
                        /\ exists rendered, error_body res = Resolves rendered
                                            /\ e = ThrownValue rendered).
Proof.
  unfold checked, error_body. destruct answer as [e'|res]; [intros [= ->]; by left|].
  intros H. right. exists res. split; [done|].
  destruct (json res) as [e'|body]; [injection H as ->; by left|].
  destruct (Z.eqb_spec (response_status res) OK) as [_|Hst]; [done|].
  injection H as <-. right. eauto.
Qed.

(** What the [catch] block receives comes from the root or the tree fetch:
    what a request or the read of a body rejects with, or the body of a
    response with a non-success status. *)
Lemma summary_failed backend fuel projectIdProp n e endpoints :
  summary backend fuel projectIdProp n = Failed e endpoints ->
  fetch_throws backend projectIdProp n e endpoints
  \/ exists rendered, fatal_fetch backend projectIdProp n (Resolves rendered) endpoints
                      /\ e = ThrownValue rendered.
Proof.
  unfold summary.
  destruct (checked (get_project backend n projectIdProp)) as [rootProject|e'|] eqn:Hroot;
    [|intros [= <- <-]|done].
  - destruct (checked (get_linkedProjects backend (S n) projectIdProp))
      as [tree|e'|] eqn:Htree; [|intros [= <- <-]|done].
    { destruct (fetch_all _ _ _ _) as [m eps].
      by destruct (aggregateObligations _ _ _ _). }
    apply checked_throws in Htree
      as [Hget|(res & Hget & [Hjson|(Hst & rendered & Hbody & ->)])].
    + left. by eapply tree_request_rejected.
    + left. by eapply tree_body_rejected.
    + right. exists rendered. split; [|done]. rewrite <- Hbody. by eapply tree_fetch_fails.
  - apply checked_throws in Hroot
      as [Hget|(res & Hget & [Hjson|(Hst & rendered & Hbody & ->)])].
    + left. by apply root_request_rejected.
    + left. by eapply root_body_rejected.
    + right. exists rendered. split; [|done]. rewrite <- Hbody. by apply root_fetch_fails.
Qed.

(** X14.  The asynchronous function rejects only with what [String(error)]
    throws in the [catch] block: on what a request or the read of a body of
    the root or the tree fetch rejected with, or on the body of a response of
    theirs with a non-success status.  Its first request is the one for the
    root project, and the requests sent before stay.  Whenever it ends, by
    returning or by rejecting, the processing flag is off, so the view shows
    the table over the rows of its state. *)
Theorem loadObligations_settles backend fuel projectIdProp w :
  let out := loadObligations backend fuel projectIdProp w in
  (forall raised, out.1 = Throws raised ->
     exists endpoints,
       fetch_throws backend projectIdProp (length (requests w))
                    (ThrownValue (Unrendered raised)) endpoints
       \/ fatal_fetch backend projectIdProp (length (requests w))
                      (Resolves (Unrendered raised)) endpoints)
  /\ (exists rest, requests out.2 = requests w ++ root_endpoint projectIdProp :: rest)
  /\ (out.1 <> Diverges ->
      showProcessing out.2 = false
      /\ render out.2 = ShowsTable (aggregatedObligations out.2)).
Proof.
  intros out. subst out. rewrite loadObligations_run.
  destruct (summary_requests backend fuel projectIdProp (length (requests w)))
    as [rest Hrest].
  destruct (summary backend fuel projectIdProp (length (requests w)))
    as [e endpoints|rows endpoints|endpoints] eqn:Hsum; subst endpoints; cbn.
  - split; [|split; [by eexists|done]].
    intros raised Hthrows.
    assert (He : e = ThrownValue (Unrendered raised)).
    { destruct e as [| |[|]]; try discriminate Hthrows. by injection Hthrows as ->. }
    subst e. eexists.
    apply summary_failed in Hsum as [Hthrown|(rendered & Hfatal & [= <-])]; eauto.
  - split; [done|]. split; [by eexists|done].
  - split; [done|]. split; [by eexists|done].
Qed.

(** X25.  When [String(error)] throws in the [catch] block, on a value that
    a request or the read of a body of the root or the tree fetch rejected
    with, or on the body of a response of theirs with a non-success status,
    nothing catches it: the asynchronous function rejects with what the
    conversion threw and nothing reaches the notification sink.  The rows
    stay as they were and the [finally] block clears the processing flag. *)
Theorem unprintable_error_rejects backend fuel projectIdProp w raised endpoints :
  fetch_throws backend projectIdProp (length (requests w))
               (ThrownValue (Unrendered raised)) endpoints
  \/ fatal_fetch backend projectIdProp (length (requests w))
                 (Resolves (Unrendered raised)) endpoints ->
  loadObligations backend fuel projectIdProp w =
  (Throws raised,
   mkView (aggregatedObligations w) false (errorMessages w) (requests w ++ endpoints)).
Proof.
  intros [H|H]; rewrite loadObligations_run.
  - rewrite (fetch_throws_summary _ _ _ _ _ _ H). simpl. by rewrite app_nil_r.
  - rewrite (fatal_fetch_summary _ _ _ _ _ _ H). simpl. by rewrite app_nil_r.
Qed.

(** X15.  The effect sends a request exactly when the session is
    authenticated; otherwise it leaves the whole view as it is. *)
Theorem effect_needs_session session backend fuel projectIdProp w :
  (session <> authenticated ->
   effect session backend fuel projectIdProp w = (Returns tt, w))
  /\ (requests (effect session backend fuel projectIdProp w).2 = requests w
      <-> session <> authenticated).
Proof.
  split; [by destruct session|].
  destruct session; cbn [effect]; [|done..].
  destruct (summary_requests backend fuel projectIdProp (length (requests w)))
    as [rest Hrest].
  rewrite loadObligations_run.
  split; [|done]. intros Heq. exfalso.
  assert (Hlen : forall endpoints : list string,
             endpoints = root_endpoint projectIdProp :: rest ->
             requests w ++ endpoints <> requests w).
  { intros endpoints -> H. apply (f_equal length) in H.
    rewrite length_app in H. simpl in H. lia. }
  destruct (summary backend fuel projectIdProp (length (requests w)))
    as [e endpoints|rows endpoints|endpoints]; by apply (Hlen endpoints Hrest).
Qed.

(** X16.  A project that resolves to no identifier is never fetched and has
    no row: every row a run writes carries a non-empty project identifier. *)
Theorem unidentified_project_has_no_rows backend fuel projectIdProp w :
  let out := loadObligations backend fuel projectIdProp w in
  (forall allProjectsFlat, ~ In "" (fetched_ids allProjectsFlat))
  /\ (aggregatedObligations out.2 = aggregatedObligations w
      \/ Forall (fun r => projectId r <> "") (aggregatedObligations out.2)).
Proof.
  intros out. subst out.
  assert (Hids : forall allProjectsFlat, ~ In "" (fetched_ids allProjectsFlat)).
  { intros flat Hin. unfold fetched_ids in Hin. by apply List.filter_In in Hin as [_ Ht]. }
  split; [done|].
  rewrite loadObligations_run. unfold summary.
  destruct (checked (get_project backend _ _)) as [rootProject| |]; [|by left..].
  destruct (checked (get_linkedProjects backend _ _)) as [tree| |]; [|by left..].
  pose proof (fetch_all_untouched (get_licenseObligations backend)
                (S (S (length (requests w)))) (flattenProjects rootProject tree) ∅ ""
                (Hids _)) as Hempty.
  destruct (fetch_all _ _ _ _) as [m endpoints]. simpl in Hempty.
  destruct (aggregateObligations _ _ _ _) as [rows|] eqn:Hagg; [|by left].
  right. simpl. eapply rows_of_empty_project; [done|]. by rewrite Hempty.
Qed.

(** X17.  In a run that completes over a tree whose projects resolve to
    pairwise distinct identifiers, the rows written have exactly one row per
    (project, title) pair that passes the filter over the fetched map:
    whatever the responses hold, the fetch loop keeps the titles of each
    project distinct. *)
Theorem completed_run_one_row_per_pair backend fuel projectIdProp w
    rootProject linkedProjectsData :
  tree_fetched backend projectIdProp (length (requests w)) rootProject linkedProjectsData ->
  NoDup (resolved_id <$> flattenProjects rootProject linkedProjectsData) ->
  let allProjectsFlat := flattenProjects rootProject linkedProjectsData in
  let started :=
    mkView (aggregatedObligations w) true (errorMessages w)
           (requests w ++ [root_endpoint projectIdProp; tree_endpoint projectIdProp]) in
  let out := loadObligations backend fuel projectIdProp w in
  out.1 = Returns tt ->
  exists M,
    (fetch_loop backend allProjectsFlat ∅ started).1 = Returns M
    /\ one_row_per_pair projectIdProp M allProjectsFlat (aggregatedObligations out.2).
Proof.
  intros [Hroot Htree] Hnd allProjectsFlat started out. subst out started.
  rewrite fetch_loop_run, loadObligations_run. unfold summary.
  rewrite Hroot, Htree. cbv zeta. fold allProjectsFlat.
  cbn [requests]. rewrite length_app. cbn [length].
  replace (length (requests w) + 2) with (S (S (length (requests w)))) by lia.
  pose proof (fetch_all_distinct (get_licenseObligations backend)
                (S (S (length (requests w)))) allProjectsFlat ∅) as Hdist.
  destruct (fetch_all _ _ _ _) as [M endpoints]. simpl in Hdist.
  destruct (aggregateObligations fuel projectIdProp allProjectsFlat M) as [rows|] eqn:Hagg;
    [|done].
  intros _. exists M. split; [done|]. simpl. unfold one_row_per_pair.
  rewrite (rows_keys _ _ _ _ _ Hagg). split; [|intros key; apply passes_selected].
  apply selected_keys_NoDup; [done|].
  apply List.Forall_forall. intros p _.
  destruct (M !! resolved_id p) as [o|] eqn:E; [|apply NoDup_nil_2].
  eapply Hdist; [|exact E]. intros k o'. by rewrite lookup_empty.
Qed.

(** ** The filter, entry by entry *)

(** X18.  An obligation with status ACKNOWLEDGED_OR_FULFILLED has its row in
    the output whatever the map of the root project holds. *)
Theorem acknowledged_always_included projectIdProp allProjectsFlat
    (m : ObligationsMap) p title d :
  In p allProjectsFlat ->
  In (title, d) (default [] (m !! resolved_id p)) ->
  status d = Some ACKNOWLEDGED_OR_FULFILLED ->
  forall fuel rows,
    aggregateObligations fuel projectIdProp allProjectsFlat m = Some rows ->
    exists path, In (row_of p (title, d) path) rows.
Proof.
  intros Hp He Hst fuel rows Hagg.
  assert (Hsel : In (p, (title, d)) (selected projectIdProp m allProjectsFlat)).
  { apply selected_In. repeat split; [done..|].
    unfold included. apply andb_true_iff. split.
    - apply status_fulfilled_iff. by left.
    - apply parentFulfillmentOk_other. simpl. by rewrite Hst. }
  destruct (selected_to_rows _ _ _ _ _ _ _ Hagg Hsel) as (path & _ & Hin). eauto.
Qed.

(** X19.  When no obligation of any project of the flat list has a
    fulfilled status, the output is empty, and it is returned without a
    single ancestry path being built: at any fuel, also on a list for which
    [buildProjectPath] would not return. *)
Theorem nothing_fulfilled_no_rows fuel projectIdProp allProjectsFlat (m : ObligationsMap) :
  (forall p e, In p allProjectsFlat ->
               In e (default [] (m !! resolved_id p)) ->
               ~ fulfilled (status e.2)) ->
  aggregateObligations fuel projectIdProp allProjectsFlat m = Some [].
Proof.
  intros Hnone. rewrite aggregateObligations_selected.
  destruct (selected projectIdProp m allProjectsFlat) as [|[p e] rest] eqn:E; [done|].
  assert (Hin : In (p, e) (selected projectIdProp m allProjectsFlat))
    by (rewrite E; by left).
  apply selected_In in Hin as (Hp & He & Hinc).
  unfold included in Hinc. apply andb_true_iff in Hinc as [Hst _].
  apply status_fulfilled_iff in Hst. by destruct (Hnone p e Hp He).
Qed.

(** X20.  Every row of an output carries the name, the version and the
    identifier of one project of the flat list, and as its path what
    [buildProjectPath] returns for that identifier over the flat list. *)
Theorem rows_carry_their_project fuel projectIdProp allProjectsFlat (m : ObligationsMap) rows :
  aggregateObligations fuel projectIdProp allProjectsFlat m = Some rows ->
  forall r, In r rows ->
    exists p, In p allProjectsFlat
              /\ projectId r = resolved_id p
              /\ projectName r = project_name p
              /\ projectVersion r = project_version p
              /\ buildProjectPath fuel (projectId r) allProjectsFlat = Some (projectPath r).
Proof.
  intros Hagg r Hr.
  destruct (rows_from_selected _ _ _ _ _ _ Hagg Hr) as (p & e & path & Hsel & Hpath & ->).
  apply selected_In in Hsel as (Hp & _ & _). exists p. by repeat split.
Qed.

(** ** [AuthProvider] *)

(** X21.  [AuthProvider] renders its children exactly when the session is
    authenticated and the spinner exactly while it is loading; it calls
    [signIn] exactly when the session is unauthenticated, with the current
    path as the callback URL, and renders nothing then. *)
Theorem AuthProvider_gates_children (status : session_status) (pathname : string) :
  (AuthProvider.render status = AuthProvider.Children <-> status = authenticated)
  /\ (AuthProvider.render status = AuthProvider.Spinner <-> status = loading)
  /\ (AuthProvider.signIn_callbackUrl status pathname = Some pathname
      <-> status = unauthenticated)
  /\ (is_Some (AuthProvider.signIn_callbackUrl status pathname) ->
      AuthProvider.render status = AuthProvider.Null).
Proof.
  destruct status; cbn; repeat split; try done; by intros [? ?].
Qed.

(** ** The flattening, on any array *)

(** X22.  [extractAllProjects] only appends: what the array held stays in
    front, in place, followed by the pre-order walk of the projects, one
    entry per node; a project whose nested list is absent or empty adds
    itself and nothing else. *)
Theorem extractAllProjects_appends (projects allProjectsFlat : list Project) :
  extractAllProjects projects allProjectsFlat
  = allProjectsFlat ++ extractAllProjects projects []
  /\ length (extractAllProjects projects allProjectsFlat)
     = length allProjectsFlat + count_forest (fun _ => true) projects
  /\ forall p,
       embedded_linkedProjects p = Some [] \/ embedded_linkedProjects p = None ->
       extractAllProjects [p] allProjectsFlat = allProjectsFlat ++ [p].
Proof.
  rewrite !extractAllProjects_preorder. split; [done|]. split;
    [|intros [i h n v lps emb] [Hp|Hp]; simpl in Hp; subst emb; reflexivity].
  rewrite length_app, <- (preorder_forest_count (fun _ => true)). f_equal.
  induction (preorder_forest projects) as [|q rest IH]; [done|]. simpl. by rewrite IH.
Qed.

(** * Further worked instances *)

Lemma Capitalize_characters_witness :
  Text.ascii_text "NOT_yet_FULFILLED"
  /\ Capitalize "NOT_yet_FULFILLED" = capitalize_from true "NOT_yet_FULFILLED"
  /\ String.length (Capitalize "NOT_yet_FULFILLED") = String.length "NOT_yet_FULFILLED"
  /\ forall c, In c (list_ascii_of_string (Capitalize "NOT_yet_FULFILLED")) -> c <> "_"%char.
Proof.
  assert (H : Text.ascii_text "NOT_yet_FULFILLED") by (vm_compute; repeat split).
  split; [exact H|]. exact (Capitalize_characters "NOT_yet_FULFILLED" H).
Defined.

Lemma Capitalize_ignores_case_witness :
  Text.ascii_text "Open_Issue"
  /\ Capitalize (Text.toLowerCase "Open_Issue") = Capitalize "Open_Issue"
  /\ Capitalize (Text.toUpperCase "Open_Issue") = Capitalize "Open_Issue".
Proof.
  assert (H : Text.ascii_text "Open_Issue") by (vm_compute; repeat split).
  split; [exact H|]. exact (Capitalize_ignores_case "Open_Issue" H).
Defined.

Lemma status_cell_texts_witness :
  aggregateObligations 2 "r" example_flat example_map = Some example_rows
  /\ forall r, In r example_rows ->
       status_cell r = "Acknowledged Or Fulfilled"
       \/ status_cell r = "Fulfilled And Parent Must Also Fulfill".
Proof.
  assert (H : aggregateObligations 2 "r" example_flat example_map = Some example_rows)
    by (vm_compute; reflexivity).
  split; [exact H|].
  exact (status_cell_texts 2 "r" example_flat example_map example_rows H).
Defined.

Lemma buildProjectPath_unreferenced_witness :
  links_defined example_flat
  /\ buildProjectPath 2 "r" example_flat = Some "Root".
Proof.
  assert (H : links_defined example_flat).
  { repeat apply Forall_cons_2; [| |apply Forall_nil_2].
    - intros lps [= <-]. apply Forall_cons_2; [by eexists|apply Forall_nil_2].
    - intros lps [=]. }
  split; [exact H|].
  apply (buildProjectPath_unreferenced 0 "r" example_flat example_root H).
  - intros p [<-|[<-|[]]]; reflexivity.
  - discriminate.
  - reflexivity.
Defined.

Lemma buildProjectPath_unknown_witness :
  buildProjectPath 1 "x" example_flat = Some ""
  /\ buildProjectPath 1 "" example_flat = Some "".
Proof.
  split.
  - apply (buildProjectPath_unknown 0 "x" example_flat). right.
    intros p [<-|[<-|[]]]; vm_compute; discriminate.
  - apply (buildProjectPath_unknown 0 "" example_flat). by left.
Defined.

Lemma buildProjectPath_never_returns_witness :
  buildProjectPath 1000 "c" ([] ++ example_dangling_root :: [example_child]) = None.
Proof.
  apply (buildProjectPath_never_returns 1000 "c" [] example_dangling_root [example_child]
           [mkLinkedProject None]).
  - apply Forall_nil_2.
  - reflexivity.
  - simpl. auto.
  - reflexivity.
  - discriminate.
  - exists example_child. split; [simpl; auto|reflexivity].
Defined.

Lemma fetch_loop_stores_answers_witness :
  fetch_loop backend_proto_title example_flat ∅ empty_view
  = (Returns example_fetched_map, example_fetched_view)
  /\ response_entries (get_licenseObligations backend_proto_title 0 "r")
     = [("__proto__", obligation_with ACKNOWLEDGED_OR_FULFILLED);
        ("Attribution", obligation_with ACKNOWLEDGED_OR_FULFILLED)]
  /\ example_fetched_map !! "r"
     = Some (own_entries (response_entries (get_licenseObligations backend_proto_title 0 "r"))).
Proof.
  assert (H : fetch_loop backend_proto_title example_flat ∅ empty_view
              = (Returns example_fetched_map, example_fetched_view))
    by (vm_compute; reflexivity).
  split; [exact H|]. split; [reflexivity|].
  apply (fetch_loop_stores_answers backend_proto_title example_flat ∅ example_fetched_map
           empty_view example_fetched_view "r"); [|exact H| |].
  - intros i j id. reflexivity.
  - vm_compute. auto.
  - change (response_entries (get_licenseObligations backend_proto_title 0 "r"))
      with [("__proto__", obligation_with ACKNOWLEDGED_OR_FULFILLED);
            ("Attribution", obligation_with ACKNOWLEDGED_OR_FULFILLED)].
    split.
    + apply NoDup_cons. split; [|apply (NoDup_singleton "Attribution")].
      intros Hin. apply list_elem_of_singleton in Hin. discriminate Hin.
    + change (Obj.ordered_keys ["__proto__"; "Attribution"]).
      cbn [Obj.ordered_keys].
      change (Obj.array_index "__proto__") with (@None N).
      change (Obj.array_index "Attribution") with (@None N).
      repeat split; [|apply Forall_nil_2].
      apply Forall_cons_2; [reflexivity|apply Forall_nil_2].
Defined.

Lemma fetch_loop_titles_distinct_witness :
  titles_distinct (∅ : ObligationsMap)
  /\ titles_distinct example_fetched_map.
Proof.
  assert (H : titles_distinct (∅ : ObligationsMap)).
  { intros k o Hk. rewrite lookup_empty in Hk. discriminate Hk. }
  split; [exact H|].
  apply (fetch_loop_titles_distinct backend_steady example_flat ∅ example_fetched_map
           empty_view example_fetched_view H).
  vm_compute. reflexivity.
Defined.

Lemma cancelled_tree_fetch_discarded_witness :
  fetch_throws backend_cancelled_at_root "r" (length (requests empty_view)) AbortError
               [root_endpoint "r"]
  /\ loadObligations backend_cancelled_at_root 2 "r" empty_view =
     (Returns tt,
      mkView (aggregatedObligations empty_view) false (errorMessages empty_view)
             (requests empty_view ++ [root_endpoint "r"])).
Proof.
  assert (H : fetch_throws backend_cancelled_at_root "r" (length (requests empty_view))
                           AbortError [root_endpoint "r"]).
  { apply (root_request_rejected backend_cancelled_at_root "r" 0 AbortError). reflexivity. }
  split; [exact H|].
  exact (cancelled_tree_fetch_discarded backend_cancelled_at_root 2 "r" empty_view
           [root_endpoint "r"] H).
Defined.

Lemma failed_tree_fetch_reports_message_witness :
  fetch_throws backend_network_down "r" (length (requests empty_view))
               (ErrorInstance "Failed to fetch") [root_endpoint "r"]
  /\ loadObligations backend_network_down 2 "r" empty_view =
     (Returns tt,
      mkView (aggregatedObligations empty_view) false
             (errorMessages empty_view ++ ["Failed to fetch"])
             (requests empty_view ++ [root_endpoint "r"])).
Proof.
  assert (H : fetch_throws backend_network_down "r" (length (requests empty_view))
                           (ErrorInstance "Failed to fetch") [root_endpoint "r"]).
  { apply (root_request_rejected backend_network_down "r" 0
             (ErrorInstance "Failed to fetch")). reflexivity. }
  split; [exact H|].
  exact (failed_tree_fetch_reports_message backend_network_down 2 "r" empty_view
           "Failed to fetch" [root_endpoint "r"] H).
Defined.

Lemma unprintable_error_rejects_witness :
  fatal_fetch backend_unprintable_body "r" (length (requests empty_view))
              (Resolves (Unrendered (ErrorInstance "Cannot convert object to primitive value")))
              [root_endpoint "r"]
  /\ loadObligations backend_unprintable_body 2 "r" empty_view =
     (Throws (ErrorInstance "Cannot convert object to primitive value"),
      mkView [] false [] ["projects/r"]).
Proof.
  assert (H : fatal_fetch backend_unprintable_body "r" (length (requests empty_view))
                (Resolves (Unrendered
                             (ErrorInstance "Cannot convert object to primitive value")))
                [root_endpoint "r"]).
  { apply (root_fetch_fails backend_unprintable_body "r" 0
             (mkResponse 500
                (Resolves (mkParsed example_root
                             (Unrendered (ErrorInstance
                                            "Cannot convert object to primitive value")))))).
    - reflexivity.
    - discriminate. }
  split; [exact H|].
  exact (unprintable_error_rejects backend_unprintable_body 2 "r" empty_view
           (ErrorInstance "Cannot convert object to primitive value")
           [root_endpoint "r"] (or_intror H)).
Defined.

Lemma fetched_tree_is_aggregated_witness :
  tree_fetched backend_steady "r" (length (requests empty_view)) example_root
               (mkLinkedProjects (Some [example_child]))
  /\ exists M,
       (fetch_loop backend_steady example_flat ∅
          (mkView [] true [] [root_endpoint "r"; tree_endpoint "r"])).1 = Returns M
       /\ loadObligations backend_steady 2 "r" empty_view =
          match aggregateObligations 2 "r" example_flat M with
          | Some rows =>
              (Returns tt,
               mkView rows false []
                      ([root_endpoint "r"; tree_endpoint "r"]
                       ++ map obligations_endpoint (fetched_ids example_flat)))
          | None =>
              (Diverges,
               mkView [] true []
                      ([root_endpoint "r"; tree_endpoint "r"]
                       ++ map obligations_endpoint (fetched_ids example_flat)))
          end.
Proof.
  assert (H : tree_fetched backend_steady "r" (length (requests empty_view)) example_root
                           (mkLinkedProjects (Some [example_child])))
    by (split; reflexivity).
  split; [exact H|].
  exact (fetched_tree_is_aggregated backend_steady 2 "r" empty_view example_root
           (mkLinkedProjects (Some [example_child])) H).
Defined.

Lemma completed_run_one_row_per_pair_witness :
  tree_fetched backend_steady "r" (length (requests empty_view)) example_root
               (mkLinkedProjects (Some [example_child]))
  /\ exists M,
       (fetch_loop backend_steady example_flat ∅
          (mkView [] true [] [root_endpoint "r"; tree_endpoint "r"])).1 = Returns M
       /\ one_row_per_pair "r" M example_flat
            (aggregatedObligations (loadObligations backend_steady 2 "r" empty_view).2).
Proof.
  assert (H : tree_fetched backend_steady "r" (length (requests empty_view)) example_root
                           (mkLinkedProjects (Some [example_child])))
    by (split; reflexivity).
  split; [exact H|].
  apply (completed_run_one_row_per_pair backend_steady 2 "r" empty_view example_root
           (mkLinkedProjects (Some [example_child])) H).
  - vm_compute. apply NoDup_cons. split; [|apply NoDup_singleton].
    intros Hin. apply list_elem_of_singleton in Hin. discriminate Hin.
  - vm_compute. reflexivity.
Defined.

Lemma acknowledged_always_included_witness :
  aggregateObligations 2 "r" example_flat example_map = Some example_rows
  /\ exists path,
       In (row_of example_root
                  ("Attribution", obligation_with ACKNOWLEDGED_OR_FULFILLED) path)
          example_rows.
Proof.
  assert (H : aggregateObligations 2 "r" example_flat example_map = Some example_rows)
    by (vm_compute; reflexivity).
  split; [exact H|].
  refine (acknowledged_always_included "r" example_flat example_map example_root
            "Attribution" (obligation_with ACKNOWLEDGED_OR_FULFILLED) _ _ _
            2 example_rows H).
  - simpl. auto.
  - vm_compute. auto.
  - reflexivity.
Defined.

Lemma nothing_fulfilled_no_rows_witness :
  aggregateObligations 0 "r" example_flat example_open_map = Some [].
Proof.
  apply (nothing_fulfilled_no_rows 0 "r" example_flat example_open_map).
  intros p e [<-|[<-|[]]] He; vm_compute in He.
  - destruct He as [<-|[]]. intros [Hf|Hf]; discriminate Hf.
  - destruct He.
Defined.

Lemma rows_carry_their_project_witness :
  aggregateObligations 2 "r" example_flat example_map = Some example_rows
  /\ forall r, In r example_rows ->
       exists p, In p example_flat
                 /\ projectId r = resolved_id p
                 /\ projectName r = project_name p
                 /\ projectVersion r = project_version p
                 /\ buildProjectPath 2 (projectId r) example_flat = Some (projectPath r).
Proof.
  assert (H : aggregateObligations 2 "r" example_flat example_map = Some example_rows)
    by (vm_compute; reflexivity).
  split; [exact H|].
  exact (rows_carry_their_project 2 "r" example_flat example_map example_rows H).
Defined.
